(** * yamlviewer: the lazy tree, its registry and the tree-to-value converter

    A shallow embedding of [yamlviewer.py].  The Qt items live in a store
    (a list indexed by item identity), the registry [_item_map] is a finite
    map keyed by identity, and the methods of [YamlViewer] are computations
    in a state-and-exception monad.  PyYAML ([yaml.load], [yaml.dump]) is
    outside the program and is taken as a pair of section variables. *)

From Stdlib Require Import ZArith Lia.
From stdpp Require Import gmap strings list pretty.

Open Scope string_scope.
Open Scope list_scope.
Open Scope nat_scope.
Set Warnings "-register-all".

(** ** Python values *)

(** What [yaml.load] hands to the viewer.  The viewer only asks of a value
    whether its type is [dict] or [list], and formats anything else with
    ["%s" % v]; [SOther] stands for every further scalar type (floats,
    dates, sets), recorded by that rendering.  Keys are strings, as the tree
    widget requires of a column text.  A value is a finite tree: a document
    whose aliases make a value contain itself is outside the model, and so
    is the interpreter's limit on the depth of recursion. *)
Inductive Scalar :=
| SNone
| SBool (b : bool)
| SInt (z : Z)
| SStr (s : string)
| SOther (rendering : string).

Inductive PyVal :=
| PScalar (a : Scalar)
| PList (l : list PyVal)
| PDict (d : list (string * PyVal)).

Abbreviation PStr s := (PScalar (SStr s)).
Abbreviation PInt z := (PScalar (SInt z)).

(** ["%s" % v] on a scalar. *)
Definition py_str (a : Scalar) : string :=
  match a with
  | SNone => "None"
  | SBool true => "True"
  | SBool false => "False"
  | SInt z => pretty z
  | SStr s => s
  | SOther r => r
  end.

(** ["(list with %u item%s)" % (len(v), "" if len(v)==1 else "s")] *)
Definition list_summary (n : nat) : string :=
  "(list with " +:+ pretty n +:+ " item" +:+ (if decide (n = 1) then "" else "s") +:+ ")".

(** [enumerate(content)], counting from [n]. *)
Fixpoint enumerate_from {A} (n : nat) (l : list A) : list (nat * A) :=
  match l with
  | [] => []
  | x :: l' => (n, x) :: enumerate_from (S n) l'
  end.
Definition enumerate {A} (l : list A) : list (nat * A) := enumerate_from 0 l.

(** A Python [dict] keeps its keys in insertion order; [result[key] = value]
    overwrites the value of a key already present, in place, and appends a
    new key at the end. *)
Definition Dict := list (string * PyVal).

Fixpoint dict_set (d : Dict) (key : string) (value : PyVal) : Dict :=
  match d with
  | [] => [(key, value)]
  | (k, v) :: d' =>
      if decide (k = key) then (k, value) :: d' else (k, v) :: dict_set d' key value
  end.

Fixpoint dict_get (d : Dict) (key : string) : option PyVal :=
  match d with
  | [] => None
  | (k, v) :: d' => if decide (k = key) then Some v else dict_get d' key
  end.

(** ** The tree widget *)

Abbreviation Id := nat.

(** A [QTreeWidgetItem]: the column texts it was built from, its children in
    display order, whether the view shows it expanded, and the
    [ItemIsEditable] flag. *)
Record QTreeWidgetItem := mkItem {
  columns : list string;
  children : list Id;
  isExpanded : bool;
  editable : bool
}.

(** [item.text(col)]: a column the item does not have reads as the empty
    string. *)
Definition text (it : QTreeWidgetItem) (col : nat) : string := nth col (columns it) "".
Definition childCount (it : QTreeWidgetItem) : nat := length (children it).

(** The entries of [_item_map]: the method [good], or the closure
    [lambda item, x=x, v=v: self.populate(v, x, z)]. *)
Inductive Handler :=
| good
| populate_closure (v : PyVal) (x z : Id).

Inductive Exn :=
| IOError          (* the file cannot be opened or read *)
| YAMLError        (* yaml.load rejects the text *)
| KeyError         (* _item_map[item] on an unregistered item *)
| AttributeError   (* a method call on the None that child(i) returns out of range *)
| RecursionError.  (* the recursion budget of the model is used up *)

Inductive Res (A : Type) :=
| Ok (a : A)
| Raise (e : Exn).
Arguments Ok {A} a.
Arguments Raise {A} e.

(** The attributes of a [YamlViewer] object, the store of the Qt items and the
    files the program can see. *)
Record YamlViewer := mkViewer {
  items : list QTreeWidgetItem;
  _root : Id;
  _marker : Id;
  _item_map : gmap Id Handler;
  _fname : option string;
  _content : option PyVal;
  files : gmap string string
}.

Definition with_items (f : list QTreeWidgetItem → list QTreeWidgetItem) (s : YamlViewer) : YamlViewer :=
  mkViewer (f (items s)) (_root s) (_marker s) (_item_map s) (_fname s) (_content s) (files s).
Definition with_item_map (f : gmap Id Handler → gmap Id Handler) (s : YamlViewer) : YamlViewer :=
  mkViewer (items s) (_root s) (_marker s) (f (_item_map s)) (_fname s) (_content s) (files s).
Definition with_fname (p : option string) (s : YamlViewer) : YamlViewer :=
  mkViewer (items s) (_root s) (_marker s) (_item_map s) p (_content s) (files s).
Definition with_content (c : option PyVal) (s : YamlViewer) : YamlViewer :=
  mkViewer (items s) (_root s) (_marker s) (_item_map s) (_fname s) c (files s).
Definition with_files (f : gmap string string → gmap string string) (s : YamlViewer) : YamlViewer :=
  mkViewer (items s) (_root s) (_marker s) (_item_map s) (_fname s) (_content s) (f (files s)).

(** ** The monad of the methods: state and exceptions *)

Definition M (A : Type) : Type := YamlViewer → Res A * YamlViewer.

Definition ret {A} (a : A) : M A := λ s, (Ok a, s).
Definition bind {A B} (m : M A) (k : A → M B) : M B := λ s,
  match m s with
  | (Ok a, s') => k a s'
  | (Raise e, s') => (Raise e, s')
  end.
Definition raise {A} (e : Exn) : M A := λ s, (Raise e, s).
Definition gets {A} (f : YamlViewer → A) : M A := λ s, (Ok (f s), s).
Definition modify (f : YamlViewer → YamlViewer) : M unit := λ s, (Ok (), f s).

Declare Scope py_scope.
Delimit Scope py_scope with py.
Notation "'do' x <- m ; k" := (bind m (λ x, k))
  (at level 10, x name, m at level 100, k at level 200, only parsing) : py_scope.
Notation "m >> k" := (bind m (λ _, k))
  (at level 100, k at level 200, right associativity, only parsing) : py_scope.
Open Scope py_scope.

(** [for x in l: body(x)] *)
Fixpoint for_each {A} (l : list A) (body : A → M unit) : M unit :=
  match l with
  | [] => ret ()
  | x :: l' => body x >> for_each l' body
  end.

(** *** Qt primitives *)

(** [QtWidgets.QTreeWidgetItem(cols)]: a new item, distinct from every item
    made before, with no children. *)
Definition new_QTreeWidgetItem (cols : list string) : M Id := λ s,
  (Ok (length (items s)), with_items (λ h, h ++ [mkItem cols [] false false]) s).

Definition update_item (x : Id) (f : QTreeWidgetItem → QTreeWidgetItem) : M unit :=
  modify (with_items (alter f x)).

(** [x.setFlags(x.flags() | QtCore.Qt.ItemIsEditable)] *)
Definition setFlags_editable (x : Id) : M unit :=
  update_item x (λ it, mkItem (columns it) (children it) (isExpanded it) true).

(** [item.addChild(x)]: every item this program adds is newly made, so Qt's
    refusal to add an item that already has a parent never applies. *)
Definition addChild (item x : Id) : M unit :=
  update_item item (λ it, mkItem (columns it) (children it ++ [x]) (isExpanded it) (editable it)).

Fixpoint remove_first (ch : Id) (l : list Id) : list Id :=
  match l with
  | [] => []
  | c :: l' => if decide (c = ch) then l' else c :: remove_first ch l'
  end.

(** [item.removeChild(ch)]: nothing happens when [ch] is not a child. *)
Definition removeChild (item ch : Id) : M unit :=
  update_item item (λ it, mkItem (columns it) (remove_first ch (children it)) (isExpanded it) (editable it)).

(** [item.takeChildren()] *)
Definition takeChildren (item : Id) : M unit :=
  update_item item (λ it, mkItem (columns it) [] (isExpanded it) (editable it)).

(** [self._item_map[x] = h] *)
Definition register (x : Id) (h : Handler) : M unit :=
  modify (with_item_map (<[x := h]>)).

(** ** YamlViewer.populate *)

(** The function [add] inside [populate].  On the values of [PyVal] the
    constructor of the item accepts the key and ["%s" % v] has a result, so
    [add] has no failure of its own. *)
Definition add (item : Id) (k : string) (v : PyVal) : M unit :=
  match v with
  | PDict _ =>
      do x <- new_QTreeWidgetItem [k];
      setFlags_editable x >>
      do z <- new_QTreeWidgetItem ["marker"];
      register x (populate_closure v x z) >>
      addChild x z >>
      addChild item x
  | PList l =>
      do x <- new_QTreeWidgetItem [k; list_summary (length l)];
      setFlags_editable x >>
      do z <- new_QTreeWidgetItem ["marker"];
      register x (populate_closure v x z) >>
      addChild x z >>
      addChild item x
  | PScalar a =>
      do x <- new_QTreeWidgetItem [k; py_str a];
      setFlags_editable x >>
      register x good >>
      addChild item x
  end.

Definition populate (content : PyVal) (item ch : Id) : M unit :=
  removeChild item ch >>
  register item good >>
  match content with
  | PDict d => for_each d (λ kv, add item kv.1 kv.2)
  | PList l => for_each (enumerate l) (λ nd, add item (pretty nd.1) nd.2)
  | PScalar _ => ret ()
  end.

(** ** YamlViewer.expanded and the itemExpanded signal *)

(** [h(item)] for a registry entry [h]. *)
Definition call (h : Handler) (item : Id) : M unit :=
  match h with
  | good => ret ()
  | populate_closure v x z => populate v x z
  end.

Definition expanded (item : Id) : M unit := λ s,
  match _item_map s !! item with
  | None => (Raise KeyError, s)
  | Some h => call h item s
  end.

(** [item.setExpanded(True)].  The invisible root has no index in the view
    and nothing happens for it; an item already shown expanded stays as it
    is; any other item becomes expanded and the view emits [itemExpanded],
    which [__init__] connected to [expanded]. *)
Definition setExpanded_True (item : Id) : M unit := λ s,
  if decide (item = _root s) then (Ok (), s)
  else match items s !! item with
       | None => (Ok (), s)
       | Some it =>
           if isExpanded it then (Ok (), s)
           else expanded item
                  (with_items (alter (λ it, mkItem (columns it) (children it) true (editable it)) item) s)
       end.

(** [item.child(i)] *)
Definition child (item : Id) (i : nat) : M Id := λ s,
  match items s !! item with
  | Some it => match children it !! i with
               | Some c => (Ok c, s)
               | None => (Raise AttributeError, s)
               end
  | None => (Raise AttributeError, s)
  end.

Definition get_childCount (item : Id) : M nat :=
  gets (λ s, from_option childCount 0 (items s !! item)).

(** The recursion of [expand_all_items] follows the tree that the calls
    themselves are building; [fuel] bounds its depth. *)
Fixpoint expand_all_items (fuel : nat) (item : Id) : M unit :=
  match fuel with
  | 0 => raise RecursionError
  | S fuel' =>
      setExpanded_True item >>
      do n <- get_childCount item;
      for_each (seq 0 n) (λ i, do c <- child item i; expand_all_items fuel' c)
  end.

(** ** tree_to_yaml *)

(** The loop [for i in range(item.childCount()): ... result[key] = value];
    it reads the tree without changing it, and it is written twice in the
    source, once for the root and once inside [item_to_dict]. *)
Fixpoint children_to_dict (h : list QTreeWidgetItem) (conv : Id → option PyVal)
    (cs : list Id) (result : Dict) : option Dict :=
  match cs with
  | [] => Some result
  | c :: cs' =>
      match h !! c, conv c with
      | Some it, Some value => children_to_dict h conv cs' (dict_set result (text it 0) value)
      | _, _ => None
      end
  end.

Fixpoint item_to_dict (fuel : nat) (h : list QTreeWidgetItem) (item : Id) : option PyVal :=
  match fuel with
  | 0 => None
  | S fuel' =>
      match h !! item with
      | None => None
      | Some it =>
          if decide (childCount it = 0) then Some (PStr (text it 1))
          else PDict <$> children_to_dict h (item_to_dict fuel' h) (children it) []
      end
  end.

(** The value handed to [yaml.dump]. *)
Definition root_dict (fuel : nat) (h : list QTreeWidgetItem) (item : Id) : option PyVal :=
  match h !! item with
  | None => None
  | Some it => PDict <$> children_to_dict h (item_to_dict fuel h) (children it) []
  end.

Section Viewer.
(** [yaml.load(s, Loader=MapLoader)]; [None] when it raises. *)
Variable yaml_load : string → option PyVal.
(** [yaml.dump(root_dict, default_flow_style=False)] *)
Variable yaml_dump : PyVal → string.

Definition tree_to_yaml (fuel : nat) (item : Id) : M string := λ s,
  match root_dict fuel (items s) item with
  | Some d => (Ok (yaml_dump d), s)
  | None => (Raise RecursionError, s)
  end.

(** [with open(fname, "rt") as f: s = f.read()]: a file that cannot be opened
    or read is a file that is not there, and the failure is [IOError]. *)
Definition read_file (fname : string) : M string := λ s,
  match files s !! fname with
  | Some t => (Ok t, s)
  | None => (Raise IOError, s)
  end.

Definition load (fuel : nat) (fname : string) : M unit :=
  do s <- read_file fname;
  match yaml_load s with
  | None => raise YAMLError
  | Some content =>
      modify (with_content (Some content)) >>
      do root <- gets _root;
      takeChildren root >>
      do marker <- gets _marker;
      populate content root marker >>
      modify (with_fname (Some fname)) >>
      expand_all_items fuel root
  end.

(** [open(filename, "wt")] empties the file before [tree_to_yaml] runs.  The
    file is taken to be writable: a failing [open] is not part of the
    model. *)
Definition save (fuel : nat) (filename : string) : M unit :=
  modify (with_files (<[filename := ""]>)) >>
  do root <- gets _root;
  do t <- tree_to_yaml fuel root;
  modify (with_files (<[filename := t]>)).

Definition re_load (fuel : nat) : M unit :=
  do f <- gets _fname;
  match f with
  | Some fname => load fuel fname
  | None => ret ()
  end.
End Viewer.

(** [YamlViewer.__init__] without a file name: the invisible root of the
    view, an empty registry and the marker item. *)
Definition YamlViewer_init (fs : gmap string string) : YamlViewer :=
  mkViewer [mkItem [] [] false false; mkItem ["marker"] [] false false] 0 1 ∅ None None fs.

(** * Vocabulary of the properties *)

(** A run of assignments [result[k] = v], in order. *)
Definition assign_all (kvs : list (string * PyVal)) (d : Dict) : Dict :=
  foldl (λ d kv, dict_set d kv.1 kv.2) d kvs.

(** The keys of a list without repetition, each at its first position. *)
Definition add_key (ks : list string) (k : string) : list string :=
  if decide (k ∈ ks) then ks else ks ++ [k].
Definition first_occurrences (ks : list string) : list string := foldl add_key [] ks.

(** No Python [list] anywhere inside a value. *)
Fixpoint no_list (v : PyVal) : bool :=
  match v with
  | PScalar _ => true
  | PList _ => false
  | PDict d => forallb (λ kv, let '(_, v') := kv in no_list v') d
  end.

(** The items below [x] form a tree of height at most [n]: every child
    named in the store exists, down to the leaves. *)
Fixpoint tree_within (h : list QTreeWidgetItem) (n : nat) (x : Id) : Prop :=
  match n with
  | 0 => False
  | S n' => ∃ it, h !! x = Some it ∧ Forall (tree_within h n') (children it)
  end.

(** [kv] is what the loop of the converter assigns for the child [c]: the
    child's label and its conversion. *)
Definition binding (h : list QTreeWidgetItem) (conv : Id → option PyVal)
    (c : Id) (kv : string * PyVal) : Prop :=
  ∃ ci, h !! c = Some ci ∧ kv.1 = text ci 0 ∧ conv c = Some kv.2.

(** The entries a value offers to [populate]: the items of a dictionary, the
    elements of a list under their positions, nothing for a scalar. *)
Definition entries (v : PyVal) : list (string * PyVal) :=
  match v with
  | PDict d => d
  | PList l => map (λ nd, (pretty nd.1, nd.2)) (enumerate l)
  | PScalar _ => []
  end.

Definition is_container (v : PyVal) : bool :=
  match v with
  | PScalar _ => false
  | _ => true
  end.

(** The columns [add] gives to the row of an entry. *)
Definition row_columns (k : string) (v : PyVal) : list string :=
  match v with
  | PDict _ => [k]
  | PList l => [k; list_summary (length l)]
  | PScalar a => [k; py_str a]
  end.

(** What [add] registers for the row [x] of a value. *)
Definition entry_handler (x : Id) (v : PyVal) : Handler :=
  if is_container v then populate_closure v x (S x) else good.

(** The items [add] makes when the store holds [L] items: the row, and for
    a container its marker. *)
Definition new_rows (L : nat) (k : string) (v : PyVal) : list QTreeWidgetItem :=
  if is_container v
  then [mkItem (row_columns k v) [S L] false true; mkItem ["marker"] [] false false]
  else [mkItem (row_columns k v) [] false true].

Definition push_child (x : Id) (it : QTreeWidgetItem) : QTreeWidgetItem :=
  mkItem (columns it) (children it ++ [x]) (isExpanded it) (editable it).

(** The identities of the rows made for a run of entries. *)
Fixpoint row_ids (L : nat) (es : list (string * PyVal)) : list Id :=
  match es with
  | [] => []
  | kv :: es' => L :: row_ids (L + length (new_rows L kv.1 kv.2)) es'
  end.

(** A placeholder is an item built from [["marker"]] that the registry does
    not know: the source makes them so (in [__init__] and twice in [add])
    and registers every other item it makes. *)
Definition placeholder (s : YamlViewer) (z : Id) : Prop :=
  ∃ it, items s !! z = Some it ∧ columns it = ["marker"] ∧ _item_map s !! z = None.

(** The row of an entry as [add] leaves it: not yet expanded, editable, a
    container with its marker as the only child, and registered. *)
Definition lazy_row (s : YamlViewer) (x : Id) (k : string) (v : PyVal) : Prop :=
  items s !! x = Some (mkItem (row_columns k v) (if is_container v then [S x] else []) false true) ∧
  _item_map s !! x = Some (entry_handler x v).

(** Everything but the store and the registry. *)
Definition same_attributes (s s' : YamlViewer) : Prop :=
  _root s' = _root s ∧ _marker s' = _marker s ∧ _fname s' = _fname s ∧
  _content s' = _content s ∧ files s' = files s.

(** The document of the example scenario,
    [{"a": 1, "b": {"c": 2, "d": 3}, "e": [4, 5]}]. *)
Definition example_doc : PyVal :=
  PDict [("a", PInt 1); ("b", PDict [("c", PInt 2); ("d", PInt 3)]); ("e", PList [PInt 4; PInt 5])].

(** A new viewer whose root has been populated from [example_doc] and
    nothing expanded yet: the rows are 2 (a), 3 (b, marker 4) and 5 (e,
    marker 6). *)
Definition example_lazy : YamlViewer := (populate example_doc 0 1 (YamlViewer_init ∅)).2.

(** The nesting depth of a value: 0 for a scalar. *)
Fixpoint depth (v : PyVal) : nat :=
  match v with
  | PScalar _ => 0
  | PList l => S (max_list (map depth l))
  | PDict d => S (max_list (map (λ kv, let '(_, v') := kv in depth v') d))
  end.

(** The item [x] and everything below it show the entry [(k, v)] fully
    expanded: [x] is the expanded row of the entry, registered with [good],
    and its children show the entries of [v], one by one and in order.  The
    items below [x] have identities in [lo, hi); [n] bounds the height. *)
Fixpoint mirrors (n : nat) (s : YamlViewer) (lo hi : nat) (x : Id) (k : string) (v : PyVal) : Prop :=
  match n with
  | 0 => False
  | S n' =>
      ∃ ks, items s !! x = Some (mkItem (row_columns k v) ks true true) ∧
            _item_map s !! x = Some good ∧
            Forall (λ c, lo ≤ c < hi) ks ∧
            Forall2 (λ c kv, mirrors n' s lo hi c kv.1 kv.2) ks (entries v)
  end.

(** What the recursive call of [expand_all_items] has to achieve on the row
    of an entry: the row ends up mirrored, by items made during the call, and
    nothing else that existed before is touched. *)
Definition expands_rows (E : Id → M unit) (n : nat) : Prop :=
  ∀ s x k v,
    depth v < n →
    lazy_row s x k v →
    _root s < length (items s) →
    x ≠ _root s →
    ∃ s', E x s = (Ok (), s') ∧
          mirrors n s' (length (items s)) (length (items s')) x k v ∧
          length (items s) ≤ length (items s') ∧
          (∀ y, y < length (items s) → y ≠ x →
                items s' !! y = items s !! y ∧ _item_map s' !! y = _item_map s !! y) ∧
          same_attributes s s'.

Definition mark_expanded (x : Id) (s : YamlViewer) : YamlViewer :=
  with_items (alter (λ it, mkItem (columns it) (children it) true (editable it)) x) s.

Definition child_of (s : YamlViewer) (p c : Id) : Prop :=
  ∃ it, items s !! p = Some it ∧ c ∈ children it.

(** The root and everything below it. *)
Definition in_tree (s : YamlViewer) (x : Id) : Prop := rtc (child_of s) (_root s) x.

(** A node that has been populated: its registry entry is [good] and none
    of its children is a placeholder. *)
Definition populated (s : YamlViewer) (x : Id) : Prop :=
  _item_map s !! x = Some good ∧ ∀ c, child_of s x c → ¬ placeholder s c.

(** The value the converter rebuilds from the fully expanded tree of a
    value: scalars in their displayed form, a container as the dictionary
    of its entries, and a container without entries as the text of its
    second column, since its row has no children. *)
Fixpoint saved_form (v : PyVal) : PyVal :=
  match v with
  | PScalar a => PStr (py_str a)
  | PList l =>
      match l with
      | [] => PStr (list_summary 0)
      | _ :: _ => PDict (map (λ nd, (pretty nd.1, nd.2)) (enumerate (map saved_form l)))
      end
  | PDict d =>
      match d with
      | [] => PStr ""
      | _ :: _ => PDict (map (λ kv, let '(k, v') := kv in (k, saved_form v')) d)
      end
  end.

(** The dictionary handed to [yaml.dump] for the tree of a document. *)
Definition saved_root (content : PyVal) : PyVal :=
  PDict (map (λ kv, (kv.1, saved_form kv.2)) (entries content)).

(** The keys of every dictionary inside the value are distinct, as they are
    in any Python [dict]. *)
Fixpoint valid_keys (v : PyVal) : Prop :=
  match v with
  | PScalar _ => True
  | PList l => foldr (λ v' P, valid_keys v' ∧ P) True l
  | PDict d => NoDup (d.*1) ∧ foldr (λ kv P, (let '(_, v') := kv in valid_keys v') ∧ P) True d
  end.

(** The scalar found in a value by following a path of keys (positions, for
    a list), in its displayed form. *)
Fixpoint scalar_at (v : PyVal) (path : list string) : option string :=
  match path with
  | [] => match v with
          | PScalar a => Some (py_str a)
          | _ => None
          end
  | k :: path' => match dict_get (entries v) k with
                  | Some v' => scalar_at v' path'
                  | None => None
                  end
  end.

(** Every scalar of the document is found in the saved value under the same
    path. *)
Definition persists (document saved : PyVal) : Prop :=
  ∀ path t, scalar_at document path = Some t → scalar_at saved path = Some t.

(** The number of items [populate] makes for a run of entries: a row for
    each entry and a marker for each entry that is a container. *)
Definition rows_made (es : list (string * PyVal)) : nat :=
  length es + length (filter (λ kv, is_container kv.2 = true) es).

(** Nothing is forgotten between [s] and [s']: no item has left the store,
    every registered item is still registered, and the root and the marker
    of the viewer are the items they were. *)
Definition keeps_all (s s' : YamlViewer) : Prop :=
  length (items s) ≤ length (items s') ∧
  dom (_item_map s) ⊆ dom (_item_map s') ∧
  _root s' = _root s ∧ _marker s' = _marker s.

(** A computation that forgets nothing, however it ends. *)
Definition never_forgets {A} (m : M A) : Prop :=
  ∀ s r s', m s = (r, s') → keeps_all s s'.

(** A computation that raises neither [IOError] nor [YAMLError]. *)
Definition no_read_or_parse_error {A} (m : M A) : Prop :=
  ∀ s e s', m s = (Raise e, s') → e ≠ IOError ∧ e ≠ YAMLError.

(** * Properties *)

(** ** Dictionaries *)

Lemma dict_set_keys d k v : (dict_set d k v).*1 = add_key (d.*1) k.
Proof.
  unfold add_key. induction d as [|[k' v'] d IH]; csimpl; [done |].
  destruct (decide (k' = k)) as [->|Hne]; csimpl.
  - rewrite decide_True; [done | apply list_elem_of_here].
  - rewrite IH. destruct (decide (k ∈ d.*1)) as [Hin|Hin].
    + rewrite decide_True; [done | by apply list_elem_of_further].
    + rewrite decide_False; [done |].
      intros [?|?]%elem_of_cons; congruence.
Qed.

Lemma add_key_NoDup ks k : NoDup ks → NoDup (add_key ks k).
Proof.
  intros H. unfold add_key. case_decide; [done |].
  apply NoDup_app. split_and!; [done | | apply NoDup_singleton].
  intros x Hx ->%list_elem_of_singleton. done.
Qed.

Lemma dict_get_set d k v k' :
  dict_get (dict_set d k v) k' = if decide (k = k') then Some v else dict_get d k'.
Proof.
  induction d as [|[k0 v0] d IH]; csimpl.
  - by destruct (decide (k = k')).
  - destruct (decide (k0 = k)) as [->|Hne]; csimpl.
    + by destruct (decide (k = k')).
    + rewrite IH. destruct (decide (k0 = k')) as [->|]; [|done].
      by rewrite decide_False.
Qed.

Lemma dict_get_elem d k v : NoDup (d.*1) → (k, v) ∈ d → dict_get d k = Some v.
Proof.
  induction d as [|[k0 v0] d IH]; csimpl; intros Hnd Hin.
  - by apply elem_of_nil in Hin.
  - apply NoDup_cons in Hnd as [Hk0 Hnd].
    apply elem_of_cons in Hin as [[= <- <-]|Hin].
    + by rewrite decide_True.
    + rewrite decide_False; [by apply IH |].
      intros ->. apply Hk0. apply list_elem_of_fmap. by exists (k, v).
Qed.

Lemma dict_set_values (P : PyVal → Prop) d k v :
  Forall (λ kv, P kv.2) d → P v → Forall (λ kv, P kv.2) (dict_set d k v).
Proof.
  intros Hd Hv. induction Hd as [|[k0 v0] d H0 Hd IH]; csimpl.
  - by constructor.
  - case_decide; constructor; auto.
Qed.

Lemma assign_all_snoc kvs k v d :
  assign_all (kvs ++ [(k, v)]) d = dict_set (assign_all kvs d) k v.
Proof. unfold assign_all. by rewrite foldl_app. Qed.

Lemma assign_all_keys kvs d : (assign_all kvs d).*1 = foldl add_key (d.*1) (kvs.*1).
Proof.
  revert d. induction kvs as [|[k v] kvs IH]; intros d; csimpl; [done |].
  by rewrite IH, dict_set_keys.
Qed.

Lemma assign_all_NoDup kvs d : NoDup (d.*1) → NoDup ((assign_all kvs d).*1).
Proof.
  revert d. induction kvs as [|[k v] kvs IH]; intros d Hd; csimpl; [done |].
  apply IH. rewrite dict_set_keys. by apply add_key_NoDup.
Qed.

Lemma assign_all_values (P : PyVal → Prop) kvs d :
  Forall (λ kv, P kv.2) d → Forall (λ kv, P kv.2) kvs → Forall (λ kv, P kv.2) (assign_all kvs d).
Proof.
  intros Hd Hk. revert d Hd. induction Hk as [|[k v] kvs H0 Hk IH]; intros d Hd; csimpl; [done |].
  apply IH. by apply dict_set_values.
Qed.

(** A key that is not assigned keeps its value. *)
Lemma assign_all_get_other kvs d k :
  k ∉ kvs.*1 → dict_get (assign_all kvs d) k = dict_get d k.
Proof.
  revert d. induction kvs as [|[k0 v0] kvs IH]; intros d Hk; csimpl; [done |].
  apply not_elem_of_cons in Hk as [Hne Hk]. csimpl in Hne.
  rewrite IH by done. rewrite dict_get_set. by rewrite decide_False.
Qed.

(** The last assignment to a key is the one that stays. *)
Lemma assign_all_get_last pre k v post d :
  k ∉ post.*1 → dict_get (assign_all (pre ++ (k, v) :: post) d) k = Some v.
Proof.
  intros Hk. unfold assign_all. rewrite foldl_app. csimpl.
  fold (assign_all post (dict_set (foldl (λ d kv, dict_set d kv.1 kv.2) d pre) k v)).
  rewrite assign_all_get_other by done. rewrite dict_get_set. by rewrite decide_True.
Qed.

Lemma first_occurrences_NoDup_id_aux ks acc :
  NoDup (acc ++ ks) → foldl add_key acc ks = acc ++ ks.
Proof.
  revert acc. induction ks as [|k ks IH]; intros acc Hnd; csimpl.
  - by rewrite app_nil_r.
  - assert (k ∉ acc) as Hk.
    { apply NoDup_app in Hnd as (_ & Hd & _). intros Hin. apply (Hd k Hin), list_elem_of_here. }
    unfold add_key at 2. rewrite decide_False by done.
    rewrite (IH (acc ++ [k])); rewrite <- app_assoc; done.
Qed.

Lemma first_occurrences_NoDup_id ks : NoDup ks → first_occurrences ks = ks.
Proof. intros H. by apply (first_occurrences_NoDup_id_aux ks []). Qed.

(** Assignments to distinct keys build the dictionary entry by entry. *)
Lemma assign_all_NoDup_id_aux kvs d :
  NoDup (d.*1 ++ kvs.*1) → assign_all kvs d = d ++ kvs.
Proof.
  revert d. induction kvs as [|[k v] kvs IH]; intros d Hnd; csimpl.
  - by rewrite app_nil_r.
  - assert (dict_set d k v = d ++ [(k, v)]) as ->.
    { assert (k ∉ d.*1) as Hk.
      { apply NoDup_app in Hnd as (_ & Hd & _). intros Hin. apply (Hd k Hin), list_elem_of_here. }
      clear -Hk. induction d as [|[k0 v0] d IHd]; csimpl; [done |].
      apply not_elem_of_cons in Hk as [Hne Hk]. rewrite decide_False by done. by rewrite IHd. }
    rewrite IH; rewrite ?fmap_app; csimpl; rewrite <- app_assoc; done.
Qed.

Lemma assign_all_NoDup_id kvs : NoDup (kvs.*1) → assign_all kvs [] = kvs.
Proof. intros H. by apply (assign_all_NoDup_id_aux kvs []). Qed.

Lemma dict_set_elem d k v kv : kv ∈ dict_set d k v → kv = (k, v) ∨ kv ∈ d.
Proof.
  induction d as [|[k0 v0] d IH]; csimpl.
  - intros ->%list_elem_of_singleton. by left.
  - case_decide; subst; intros [->|Hin]%elem_of_cons.
    + by left.
    + right. by apply list_elem_of_further.
    + right. apply list_elem_of_here.
    + destruct (IH Hin); [by left | right; by apply list_elem_of_further].
Qed.

Lemma assign_all_elem kvs d kv : kv ∈ assign_all kvs d → kv ∈ kvs ∨ kv ∈ d.
Proof.
  revert d. induction kvs as [|[k v] kvs IH]; intros d; csimpl; [by right |].
  intros [Hin|Hin]%IH; [left; by apply list_elem_of_further |].
  apply dict_set_elem in Hin as [->|Hin]; [left; apply list_elem_of_here | by right].
Qed.

(** ** The converter *)

Lemma children_to_dict_spec h conv cs result :
  Forall (λ c, is_Some (h !! c) ∧ is_Some (conv c)) cs →
  ∃ kvs, Forall2 (binding h conv) cs kvs ∧
         children_to_dict h conv cs result = Some (assign_all kvs result).
Proof.
  intros H. revert result. induction H as [|c cs [[ci Hci] [v Hv]] _ IH]; intros result.
  - exists []. split; [constructor | done].
  - destruct (IH (dict_set result (text ci 0) v)) as (kvs & Hkvs & Heq).
    exists ((text ci 0, v) :: kvs). split.
    + constructor; [by exists ci | done].
    + simpl. by rewrite Hci, Hv.
Qed.

Lemma no_list_dict d : Forall (λ kv, no_list kv.2 = true) d → no_list (PDict d) = true.
Proof.
  induction 1 as [|[k v] d Hv _ IH]; [done |].
  simpl in *. by rewrite Hv.
Qed.

Lemma tree_within_mono h n x : tree_within h n x → tree_within h (S n) x.
Proof.
  revert x. induction n as [|n IH]; intros x; [done |].
  intros (it & Hit & Hc). exists it. split; [done |].
  eapply Forall_impl; [exact Hc | auto].
Qed.

Lemma item_to_dict_total h n x :
  tree_within h n x → ∃ r, item_to_dict n h x = Some r ∧ no_list r = true.
Proof.
  revert x. induction n as [|n IH]; intros x; [done |].
  intros (it & Hit & Hc). simpl. rewrite Hit.
  case_decide; [by eexists |].
  destruct (children_to_dict_spec h (item_to_dict n h) (children it) []) as (kvs & Hkvs & ->).
  { eapply Forall_impl; [exact Hc |]. intros c Hcw. split.
    - destruct n; [done |]. destruct Hcw as (ci & -> & _). by eexists.
    - destruct (IH c Hcw) as (r & -> & _). by eexists. }
  eexists. split; [done |]. apply no_list_dict.
  apply (assign_all_values (λ v, no_list v = true)); [constructor |].
  clear -Hkvs IH Hc. induction Hkvs as [|c [k v] cs kvs (ci & _ & _ & Hv) _ IHk]; [constructor |].
  apply Forall_cons in Hc as [Hcw Hc]. constructor; [| by apply IHk].
  destruct (IH c Hcw) as (r & Hr & Hnl). simpl in *. congruence.
Qed.

(** C2. [item_to_dict] returns the text of column 1 as a string for a node
    without children; for any other node it returns a dictionary built from
    the children in child order, whose keys are the children's labels and
    whose values are the conversions of the children (exactly one entry per
    child when the labels are distinct); a Python list is never part of the
    result. *)
Theorem item_to_dict_spec (h : list QTreeWidgetItem) (n : nat) (x : Id) (it : QTreeWidgetItem) :
  h !! x = Some it →
  tree_within h (S n) x →
  ∃ r, item_to_dict (S n) h x = Some r ∧
       no_list r = true ∧
       (children it = [] → r = PStr (text it 1)) ∧
       (children it ≠ [] →
          ∃ kvs d, Forall2 (binding h (item_to_dict n h)) (children it) kvs ∧
                   r = PDict d ∧
                   d.*1 = first_occurrences (kvs.*1) ∧
                   (∀ kv, kv ∈ d → kv ∈ kvs) ∧
                   (NoDup (kvs.*1) → d = kvs)).
Proof.
  intros Hit Hw.
  destruct (item_to_dict_total h (S n) x Hw) as (r & Hr & Hnl).
  exists r. split_and!; [done | done | |].
  - intros Hnil. simpl in Hr. rewrite Hit in Hr.
    unfold childCount in Hr. rewrite Hnil in Hr. simpl in Hr. congruence.
  - intros Hne. destruct Hw as (it' & Hit' & Hc). simplify_eq.
    simpl in Hr. rewrite Hit in Hr. rewrite decide_False in Hr
      by (unfold childCount; by destruct (children it)).
    destruct (children_to_dict_spec h (item_to_dict n h) (children it) []) as (kvs & Hkvs & Heq).
    { eapply Forall_impl; [exact Hc |]. intros c Hcw. split.
      - destruct n; [done |]. destruct Hcw as (ci & -> & _). by eexists.
      - destruct (item_to_dict_total h n c Hcw) as (r' & -> & _). by eexists. }
    rewrite Heq in Hr. simpl in Hr. simplify_eq.
    exists kvs, (assign_all kvs []). split_and!; [done | done | | |].
    + by rewrite assign_all_keys.
    + intros kv [?|Hin]%assign_all_elem; [done | by apply elem_of_nil in Hin].
    + apply assign_all_NoDup_id.
Qed.

Lemma item_to_dict_spec_witness :
  ∃ r, item_to_dict 2 [mkItem ["k"] [1; 2] true true; mkItem ["a"; "1"] [] false true;
                       mkItem ["b"; "2"] [] false true] 0 = Some r ∧ no_list r = true.
Proof.
  destruct (item_to_dict_spec
              [mkItem ["k"] [1; 2] true true; mkItem ["a"; "1"] [] false true;
               mkItem ["b"; "2"] [] false true] 1 0 (mkItem ["k"] [1; 2] true true))
    as (r & Hr & Hnl & _).
  - reflexivity.
  - simpl. eexists. split; [reflexivity |].
    repeat (constructor; [eexists; split; [reflexivity | constructor] |]). constructor.
  - exists r. split; assumption.
Defined.

Lemma Forall2_binding_split h conv pre c post kvs :
  Forall2 (binding h conv) (pre ++ c :: post) kvs →
  ∃ kpre kv kpost, kvs = kpre ++ kv :: kpost ∧ binding h conv c kv ∧
                   Forall2 (binding h conv) post kpost.
Proof.
  intros (kpre & kvs' & Hpre & Hrest & ->)%Forall2_app_inv_l.
  apply Forall2_cons_inv_l in Hrest as (kv & kpost & Hkv & Hpost & ->).
  by exists kpre, kv, kpost.
Qed.

(** C9. When several children of a node carry the same label, the
    dictionary that the converter builds, inside [item_to_dict] as well as in
    the loop over the root, holds one entry for that label and its value is
    the conversion of the last such child; the values of the earlier ones are
    not in the result. *)
Theorem last_sibling_wins (h : list QTreeWidgetItem) (n : nat) (x : Id)
    (it : QTreeWidgetItem) (pre post : list Id) (c : Id) (ci : QTreeWidgetItem) :
  h !! x = Some it →
  tree_within h (S n) x →
  children it = pre ++ c :: post →
  h !! c = Some ci →
  Forall (λ c', ∀ ci', h !! c' = Some ci' → text ci' 0 ≠ text ci 0) post →
  ∃ v d, item_to_dict n h c = Some v ∧
         item_to_dict (S n) h x = Some (PDict d) ∧
         root_dict n h x = Some (PDict d) ∧
         dict_get d (text ci 0) = Some v ∧
         (∀ v', (text ci 0, v') ∈ d → v' = v).
Proof.
  intros Hit (it' & Hit' & Hc) Hkids Hci Hpost. simplify_eq.
  destruct (children_to_dict_spec h (item_to_dict n h) (children it) []) as (kvs & Hkvs & Heq).
  { eapply Forall_impl; [exact Hc |]. intros c' Hcw. split.
    - destruct n; [done |]. destruct Hcw as (ci' & -> & _). by eexists.
    - destruct (item_to_dict_total h n c' Hcw) as (r' & -> & _). by eexists. }
  rewrite Hkids in Hkvs.
  apply Forall2_binding_split in Hkvs as (kpre & [k v] & kpost & -> & (ci' & Hci' & Hk & Hv) & Hkpost).
  simpl in Hk, Hv. simplify_eq.
  assert (text ci 0 ∉ kpost.*1) as Hfresh.
  { clear -Hpost Hkpost. induction Hkpost as [|c' [k' v'] post kpost (ci' & Hci' & Hk' & _) _ IH];
      csimpl; [apply not_elem_of_nil |].
    apply Forall_cons in Hpost as [Hc' Hpost]. simpl in Hk'. subst k'.
    apply not_elem_of_cons. split; [| by apply IH].
    intros Heq. by apply (Hc' ci'). }
  assert (dict_get (assign_all (kpre ++ (text ci 0, v) :: kpost) []) (text ci 0) = Some v) as Hget
    by by apply assign_all_get_last.
  exists v, (assign_all (kpre ++ (text ci 0, v) :: kpost) []). split_and!.
  - done.
  - simpl. rewrite Hit, Heq. rewrite decide_False; [done |].
    unfold childCount. rewrite Hkids, length_app. simpl. lia.
  - unfold root_dict. by rewrite Hit, Heq.
  - done.
  - intros v' Hin. apply dict_get_elem in Hin; [congruence |].
    apply assign_all_NoDup. constructor.
Qed.

Lemma last_sibling_wins_witness :
  ∃ v d, item_to_dict 1 [mkItem [] [1; 2] false false; mkItem ["k"; "old"] [] false true;
                         mkItem ["k"; "new"] [] false true] 2 = Some v ∧
         root_dict 1 [mkItem [] [1; 2] false false; mkItem ["k"; "old"] [] false true;
                      mkItem ["k"; "new"] [] false true] 0 = Some (PDict d) ∧
         dict_get d "k" = Some v.
Proof.
  destruct (last_sibling_wins
              [mkItem [] [1; 2] false false; mkItem ["k"; "old"] [] false true;
               mkItem ["k"; "new"] [] false true] 1 0
              (mkItem [] [1; 2] false false) [1] [] 2 (mkItem ["k"; "new"] [] false true))
    as (v & d & Hv & _ & Hd & Hget & _).
  - reflexivity.
  - simpl. eexists. split; [reflexivity |].
    repeat (constructor; [eexists; split; [reflexivity | constructor] |]). constructor.
  - reflexivity.
  - reflexivity.
  - constructor.
  - exists v, d. split_and!; assumption.
Defined.

(** The same at a concrete tree: the root has the rows [k -> old] and
    [k -> new]; the saved dictionary is [{k: new}]. *)
Example duplicate_labels_keep_last :
  root_dict 1 [mkItem [] [1; 2] false false; mkItem ["k"; "old"] [] false true;
               mkItem ["k"; "new"] [] false true] 0 = Some (PDict [("k", PStr "new")]).
Proof. reflexivity. Qed.

(** ** Population *)

Lemma same_attributes_refl s : same_attributes s s.
Proof. by repeat split. Qed.

Lemma same_attributes_trans s1 s2 s3 :
  same_attributes s1 s2 → same_attributes s2 s3 → same_attributes s1 s3.
Proof. unfold same_attributes. intros (?&?&?&?&?) (?&?&?&?&?). split_and!; congruence. Qed.

Lemma alter_last {A} (f : A → A) (h : list A) (a : A) :
  alter f (length h) (h ++ [a]) = h ++ [f a].
Proof.
  replace (length h) with (length h + 0) at 1 by lia.
  by rewrite alter_app_r.
Qed.

Lemma add_run item k v s :
  add item k v s =
    (Ok (), mkViewer (alter (push_child (length (items s))) item
                        (items s ++ new_rows (length (items s)) k v))
              (_root s) (_marker s)
              (<[length (items s) := entry_handler (length (items s)) v]> (_item_map s))
              (_fname s) (_content s) (files s)).
Proof.
  destruct s as [h r mk m f c fs].
  destruct v as [a|l|d]; unfold add, bind, new_QTreeWidgetItem, setFlags_editable, register,
    addChild, update_item, modify, with_items, with_item_map, new_rows, entry_handler, push_child;
    simpl.
  - by rewrite alter_last.
  - rewrite alter_last. rewrite length_app. simpl.
    rewrite alter_app_l by (rewrite length_app; simpl; lia).
    rewrite alter_last. simpl. rewrite <- app_assoc. simpl.
    by replace (length h + 1) with (S (length h)) by lia.
  - rewrite alter_last. rewrite length_app. simpl.
    rewrite alter_app_l by (rewrite length_app; simpl; lia).
    rewrite alter_last. simpl. rewrite <- app_assoc. simpl.
    by replace (length h + 1) with (S (length h)) by lia.
Qed.

Lemma new_rows_length L k v : 0 < length (new_rows L k v).
Proof. unfold new_rows. destruct (is_container v); simpl; lia. Qed.

Lemma row_ids_bounds es : ∀ L, Forall (λ c, L ≤ c) (row_ids L es).
Proof.
  induction es as [|[k v] es IH]; intros L; simpl; constructor; [lia |].
  eapply Forall_impl; [apply IH |]. simpl. intros; lia.
Qed.

Lemma row_ids_NoDup es : ∀ L, NoDup (row_ids L es).
Proof.
  induction es as [|[k v] es IH]; intros L; simpl; constructor; [| apply IH].
  intros Hin. pose proof (row_ids_bounds es (L + length (new_rows L k v))) as Hb.
  rewrite Forall_forall in Hb. apply Hb in Hin.
  pose proof (new_rows_length L k v). lia.
Qed.

Lemma row_ids_length es L : length (row_ids L es) = length es.
Proof. revert L. induction es as [|kv es IH]; intros L; simpl; [done | by rewrite IH]. Qed.

Lemma for_each_map {A B} (g : A → B) (l : list A) (body : B → M unit) :
  for_each (map g l) body = for_each l (λ a, body (g a)).
Proof. induction l as [|a l IH]; simpl; [done | by rewrite IH]. Qed.

Lemma push_child_nil it :
  mkItem (columns it) (children it ++ []) (isExpanded it) (editable it) = it.
Proof. destruct it. simpl. by rewrite app_nil_r. Qed.

Lemma new_rows_head L k v :
  new_rows L k v !! 0 =
    Some (mkItem (row_columns k v) (if is_container v then [S L] else []) false true).
Proof. unfold new_rows. by destruct (is_container v). Qed.

(** The loop of [populate] over the entries: it appends one row per entry to
    [item], in order, and touches nothing else that existed before. *)
Lemma add_loop es : ∀ s item it,
  items s !! item = Some it →
  ∃ s', for_each es (λ kv, add item kv.1 kv.2) s = (Ok (), s') ∧
        items s' !! item =
          Some (mkItem (columns it) (children it ++ row_ids (length (items s)) es)
                  (isExpanded it) (editable it)) ∧
        length (items s) ≤ length (items s') ∧
        (∀ y, y < length (items s) → y ≠ item → items s' !! y = items s !! y) ∧
        (∀ y, y < length (items s) → _item_map s' !! y = _item_map s !! y) ∧
        Forall2 (λ c kv, lazy_row s' c kv.1 kv.2) (row_ids (length (items s)) es) es ∧
        Forall (λ c, c < length (items s')) (row_ids (length (items s)) es) ∧
        same_attributes s s'.
Proof.
  induction es as [|[k v] es IH]; intros s item it Hit.
  - exists s. simpl. rewrite push_child_nil.
    split_and!; auto using same_attributes_refl. all: constructor.
  - pose proof (lookup_lt_Some _ _ _ Hit) as Hlt.
    pose proof (new_rows_length (length (items s)) k v) as Hw.
    simpl. unfold bind at 1. rewrite add_run.
    set (L := length (items s)) in *.
    set (s1 := mkViewer _ _ _ _ _ _ _).
    assert (length (items s1) = L + length (new_rows L k v)) as HL1.
    { unfold s1. simpl. by rewrite length_alter, length_app. }
    assert (∀ y, y ≠ item → items s1 !! y = (items s ++ new_rows L k v) !! y) as Hs1.
    { intros y Hy. unfold s1. simpl. by rewrite list_lookup_alter_ne. }
    assert (items s1 !! item = Some (push_child L it)) as Hit1.
    { unfold s1. simpl. rewrite list_lookup_alter_eq, lookup_app_l by done. by rewrite Hit. }
    destruct (IH s1 item _ Hit1) as (s' & Hrun & Hitem & Hlen & Hfr & Hfm & Hrows & Hbd & Hat).
    rewrite HL1 in *.
    exists s'. split_and!.
    + done.
    + rewrite Hitem. simpl. by rewrite <- app_assoc.
    + lia.
    + intros y Hy Hne. rewrite Hfr by (done || lia). rewrite Hs1 by done. by apply lookup_app_l.
    + intros y Hy. rewrite Hfm by lia. unfold s1. simpl. apply lookup_insert_ne. lia.
    + constructor; [| done]. split; simpl.
      * rewrite Hfr by lia. rewrite Hs1 by lia.
        rewrite lookup_app_r by done. replace (L - length (items s)) with 0 by (unfold L; lia).
        apply new_rows_head.
      * rewrite Hfm by lia. unfold s1. simpl. apply lookup_insert_eq.
    + constructor; [lia | done].
    + eapply same_attributes_trans; [| exact Hat]. by repeat split.
Qed.

Lemma populate_run v item ch s :
  populate v item ch s =
    for_each (entries v) (λ kv, add item kv.1 kv.2)
      (mkViewer
         (alter (λ it, mkItem (columns it) (remove_first ch (children it)) (isExpanded it)
                         (editable it)) item (items s))
         (_root s) (_marker s) (<[item := good]> (_item_map s))
         (_fname s) (_content s) (files s)).
Proof.
  unfold populate, bind, removeChild, register, update_item, modify, with_items, with_item_map.
  simpl. destruct v as [a|l|d]; simpl; [done | | done].
  by rewrite for_each_map.
Qed.

(** [populate] in full: the marker leaves, the node is registered with
    [good], and one row per entry is appended in entry order. *)
Lemma populate_spec v item ch s it :
  items s !! item = Some it →
  ∃ s', populate v item ch s = (Ok (), s') ∧
        items s' !! item =
          Some (mkItem (columns it)
                  (remove_first ch (children it) ++ row_ids (length (items s)) (entries v))
                  (isExpanded it) (editable it)) ∧
        _item_map s' !! item = Some good ∧
        length (items s) ≤ length (items s') ∧
        (∀ y, y < length (items s) → y ≠ item → items s' !! y = items s !! y) ∧
        (∀ y, y < length (items s) → y ≠ item → _item_map s' !! y = _item_map s !! y) ∧
        Forall2 (λ c kv, lazy_row s' c kv.1 kv.2) (row_ids (length (items s)) (entries v))
          (entries v) ∧
        Forall (λ c, c < length (items s')) (row_ids (length (items s)) (entries v)) ∧
        same_attributes s s'.
Proof.
  intros Hit. pose proof (lookup_lt_Some _ _ _ Hit) as Hlt.
  rewrite populate_run. set (s0 := mkViewer _ _ _ _ _ _ _).
  assert (length (items s0) = length (items s)) as HL by (unfold s0; simpl; apply length_alter).
  assert (items s0 !! item =
            Some (mkItem (columns it) (remove_first ch (children it)) (isExpanded it) (editable it)))
    as Hit0 by (unfold s0; simpl; by rewrite list_lookup_alter_eq, Hit).
  destruct (add_loop (entries v) s0 item _ Hit0)
    as (s' & Hrun & Hitem & Hlen & Hfr & Hfm & Hrows & Hbd & Hat).
  rewrite HL in *. exists s'. split_and!; try done.
  - rewrite Hfm by done. unfold s0. simpl. apply lookup_insert_eq.
  - intros y Hy Hne. rewrite Hfr by done. unfold s0. simpl. by apply list_lookup_alter_ne.
  - intros y Hy Hne. rewrite Hfm by done. unfold s0. simpl. by apply lookup_insert_ne.
Qed.

Lemma lazy_rows_registered s ks es :
  Forall2 (λ c kv, lazy_row s c kv.1 kv.2) ks es → Forall (λ c, ¬ placeholder s c) ks.
Proof.
  induction 1 as [|c kv ks es [_ Hreg] _ IH]; constructor; [| done].
  intros (zi & _ & _ & Hnone). congruence.
Qed.

Lemma enumerate_from_lookup {A} (l : list A) : ∀ n i,
  enumerate_from n l !! i = (λ x, (n + i, x)) <$> l !! i.
Proof.
  induction l as [|a l IH]; intros n i; [done |].
  destruct i as [|i]; simpl.
  - by rewrite Nat.add_0_r.
  - rewrite IH. by replace (S n + i) with (n + S i) by lia.
Qed.

(** The entries of a list, said without [enumerate]: as many as the list
    has elements, the element at position [i] under the label of [i]. *)
Lemma entries_list_length l : length (entries (PList l)) = length l.
Proof.
  simpl. rewrite length_map. unfold enumerate. generalize 0.
  induction l as [|a l IH]; intros n; simpl; [done | by rewrite IH].
Qed.

Lemma entries_list_lookup l i x :
  l !! i = Some x → entries (PList l) !! i = Some (pretty i, x).
Proof.
  intros Hx. simpl. rewrite list_lookup_fmap. unfold enumerate.
  rewrite enumerate_from_lookup, Hx. done.
Qed.

(** C4. After [populate(v, node, placeholder)] on a node whose only child is
    its placeholder, the placeholder is gone, no child of the node is a
    placeholder, and the node has exactly one child per entry of [v], in
    entry order, each the row [add] makes for that entry: for a dictionary
    the rows of its items in insertion order, for a list of [n] elements [n]
    rows, the row at position [i] labelled [i] and made for the element at
    position [i]. *)
Theorem populate_materializes (s : YamlViewer) (v : PyVal) (node ph : Id)
    (it : QTreeWidgetItem) :
  items s !! node = Some it →
  children it = [ph] →
  placeholder s ph →
  ∃ s' ks, populate v node ph s = (Ok (), s') ∧
           items s' !! node = Some (mkItem (columns it) ks (isExpanded it) (editable it)) ∧
           length ks = length (entries v) ∧
           (ph ∉ ks) ∧
           Forall (λ c, ¬ placeholder s' c) ks ∧
           Forall2 (λ c kv, lazy_row s' c kv.1 kv.2) ks (entries v) ∧
           (∀ d, v = PDict d → Forall2 (λ c kv, lazy_row s' c kv.1 kv.2) ks d) ∧
           (∀ l, v = PList l →
                 length ks = length l ∧
                 ∀ i x, l !! i = Some x →
                        ∃ c, ks !! i = Some c ∧ lazy_row s' c (pretty i) x).
Proof.
  intros Hit Hkids (pi & Hpi & _ & _).
  destruct (populate_spec v node ph s it Hit)
    as (s' & Hrun & Hitem & _ & _ & _ & _ & Hrows & _ & _).
  rewrite Hkids in Hitem. simpl in Hitem. rewrite decide_True in Hitem by done. simpl in Hitem.
  exists s', (row_ids (length (items s)) (entries v)). split_and!; try done.
  - apply row_ids_length.
  - intros Hin. pose proof (row_ids_bounds (entries v) (length (items s))) as Hb.
    rewrite Forall_forall in Hb. apply Hb in Hin. apply lookup_lt_Some in Hpi. lia.
  - by eapply lazy_rows_registered.
  - by intros d ->.
  - intros l ->. split.
    + by rewrite row_ids_length, entries_list_length.
    + intros i x Hx. apply entries_list_lookup in Hx.
      destruct (Forall2_lookup_r _ _ _ _ _ Hrows Hx) as (c & Hc & Hrow). by exists c.
Qed.

Lemma populate_materializes_witness :
  ∃ s' c0 c1, populate (PList [PInt 4; PInt 5]) 5 6 example_lazy = (Ok (), s') ∧
              items s' !! 5 = Some (mkItem ["e"; "(list with 2 items)"] [c0; c1] false true) ∧
              (columns <$> items s' !! c0) = Some ["0"; "4"] ∧
              (columns <$> items s' !! c1) = Some ["1"; "5"].
Proof.
  destruct (populate_materializes example_lazy (PList [PInt 4; PInt 5]) 5 6
              (mkItem ["e"; "(list with 2 items)"] [6] false true))
    as (s' & ks & Hrun & Hitem & _ & _ & _ & _ & _ & Hlist).
  - reflexivity.
  - reflexivity.
  - exists (mkItem ["marker"] [] false false). split_and!; reflexivity.
  - destruct (Hlist [PInt 4; PInt 5] eq_refl) as [Hlen Hat].
    destruct (Hat 0 (PInt 4) eq_refl) as (c0 & Hc0 & [Hi0 _]).
    destruct (Hat 1 (PInt 5) eq_refl) as (c1 & Hc1 & [Hi1 _]).
    destruct ks as [|k0 [|k1 [|k2 ks]]]; try discriminate Hlen.
    injection Hc0 as ->. injection Hc1 as ->.
    exists s', c0, c1. split_and!; [assumption | assumption | |].
    + by rewrite Hi0.
    + by rewrite Hi1.
Defined.

(** C3. Once the expand handler has run the population action registered
    for a container node, running the handler for that node again changes
    nothing at all and raises nothing: the first run left [good] in the
    registry. *)
Theorem expanded_again_is_noop (s : YamlViewer) (x z : Id) (v : PyVal) :
  is_Some (items s !! x) →
  _item_map s !! x = Some (populate_closure v x z) →
  ∃ s1, expanded x s = (Ok (), s1) ∧ expanded x s1 = (Ok (), s1).
Proof.
  intros [it Hit] Hreg.
  destruct (populate_spec v x z s it Hit) as (s1 & Hrun & _ & Hgood & _).
  exists s1. unfold expanded. rewrite Hreg, Hgood. by split.
Qed.

Lemma expanded_again_is_noop_witness :
  ∃ s1, expanded 3 example_lazy = (Ok (), s1) ∧ expanded 3 s1 = (Ok (), s1).
Proof.
  apply (expanded_again_is_noop example_lazy 3 4 (PDict [("c", PInt 2); ("d", PInt 3)])).
  - eexists. reflexivity.
  - reflexivity.
Defined.

(** It is the registry that makes the second expansion harmless: the closure
    itself, run a second time, would append the rows again. *)
Example populate_twice_duplicates :
  let v := PDict [("c", PInt 2); ("d", PInt 3)] in
  let s1 := (populate v 3 4 example_lazy).2 in
  let s2 := (populate v 3 4 s1).2 in
  (children <$> items s1 !! 3) = Some [7; 8] ∧
  (children <$> items s2 !! 3) = Some [7; 8; 9; 10].
Proof. split; reflexivity. Qed.

(** ** Expanding everything *)

Lemma enumerate_from_elem {A} (l : list A) n i (x : A) :
  (i, x) ∈ enumerate_from n l → x ∈ l.
Proof.
  revert n. induction l as [|a l IH]; intros n; simpl.
  - by intros ?%elem_of_nil.
  - intros [[= -> ->]|Hin]%elem_of_cons; [apply list_elem_of_here |].
    apply list_elem_of_further. by eapply IH.
Qed.

Lemma entries_depth v k v' : (k, v') ∈ entries v → depth v' < depth v.
Proof.
  destruct v as [a|l|d]; simpl.
  - by intros ?%elem_of_nil.
  - intros ([i x] & [= -> ->] & Hin)%list_elem_of_fmap.
    apply enumerate_from_elem in Hin.
    apply Nat.lt_succ_r, max_list_elem_of_le, list_elem_of_fmap. by exists x.
  - intros Hin. apply Nat.lt_succ_r, max_list_elem_of_le, list_elem_of_fmap.
    by exists (k, v').
Qed.

Lemma Forall2_impl_l {A B} (P P' : A → B → Prop) (Q : A → Prop) l k :
  Forall2 P l k → Forall Q l → (∀ x y, Q x → P x y → P' x y) → Forall2 P' l k.
Proof.
  intros H HQ Himp. induction H as [|x y l k Hxy _ IH]; [constructor |].
  apply Forall_cons in HQ as [Hx HQ]. constructor; auto.
Qed.

(** [mirrors] looks only at [x] and at the identities in [lo, hi). *)
Lemma mirrors_frame n : ∀ s s' lo hi x k v,
  mirrors n s lo hi x k v →
  (∀ y, y = x ∨ lo ≤ y < hi →
        items s' !! y = items s !! y ∧ _item_map s' !! y = _item_map s !! y) →
  mirrors n s' lo hi x k v.
Proof.
  induction n as [|n IH]; intros s s' lo hi x k v; [done |].
  intros (ks & Hit & Hreg & Hbd & Hks) Hsame. exists ks.
  destruct (Hsame x) as [-> ->]; [by left |].
  split_and!; try done.
  eapply Forall2_impl_l; [exact Hks | exact Hbd |].
  intros c kv Hc Hm. simpl in *. eapply IH; [exact Hm |].
  intros y [->|Hy]; apply Hsame; by right.
Qed.

Lemma mirrors_weaken n : ∀ s lo hi lo' hi' x k v,
  mirrors n s lo hi x k v → lo' ≤ lo → hi ≤ hi' → mirrors n s lo' hi' x k v.
Proof.
  induction n as [|n IH]; intros s lo hi lo' hi' x k v; [done |].
  intros (ks & Hit & Hreg & Hbd & Hks) Hlo Hhi. exists ks.
  split_and!; try done.
  - eapply Forall_impl; [exact Hbd |]. simpl. intros; lia.
  - eapply Forall2_impl; [exact Hks |]. simpl. intros c kv Hm. by eapply IH.
Qed.

(** The loop [for i in range(item.childCount()): expand_all_items(item.child(i))],
    started after the children [done] have been dealt with. *)
Lemma expand_children E n item P0 P1 it :
  expands_rows E n →
  item < P0 →
  ∀ todo es_todo done es_done s,
    items s !! item = Some it →
    children it = done ++ todo →
    _root s < P0 →
    P1 ≤ length (items s) →
    NoDup (done ++ todo) →
    Forall (λ c, P0 ≤ c < P1) (done ++ todo) →
    Forall2 (λ c kv, mirrors n s P1 (length (items s)) c kv.1 kv.2) done es_done →
    Forall2 (λ c kv, lazy_row s c kv.1 kv.2) todo es_todo →
    Forall (λ kv, depth kv.2 < n) es_todo →
    ∃ s', for_each (seq (length done) (length todo)) (λ i, do c <- child item i; E c) s
            = (Ok (), s') ∧
          items s' !! item = Some it ∧
          Forall2 (λ c kv, mirrors n s' P1 (length (items s')) c kv.1 kv.2)
            (done ++ todo) (es_done ++ es_todo) ∧
          length (items s) ≤ length (items s') ∧
          (∀ y, y < P0 → items s' !! y = items s !! y ∧ _item_map s' !! y = _item_map s !! y) ∧
          same_attributes s s'.
Proof.
  intros HE Hitem. induction todo as [|c todo IH];
    intros es_todo done es_done s Hit Hkids Hroot HP1 Hnd Hbd Hdone Htodo Hdepth.
  - apply Forall2_nil_inv_l in Htodo as ->. exists s. simpl. rewrite !app_nil_r.
    split_and!; auto using same_attributes_refl.
  - apply Forall2_cons_inv_l in Htodo as ([k v] & es' & Hc & Htodo & ->).
    apply Forall_cons in Hdepth as [Hdv Hdepth]. simpl in Hc, Hdv.
    assert (P0 ≤ c < P1) as Hcb.
    { rewrite Forall_forall in Hbd. apply Hbd, elem_of_app. right. apply list_elem_of_here. }
    destruct (HE s c k v Hdv Hc) as (s1 & Hrun & Hm & Hlen & Hfr & Hat); [lia | lia |].
    assert (∀ y, y < P1 → y ≠ c →
              items s1 !! y = items s !! y ∧ _item_map s1 !! y = _item_map s !! y) as Hfr'.
    { intros y Hy Hne. apply Hfr; [lia | done]. }
    destruct (IH es' (done ++ [c]) (es_done ++ [(k, v)]) s1) as (s' & Hloop & Hit' & Hall & Hlen' & Hfr2 & Hat').
    + destruct (Hfr' item) as [-> _]; [lia | lia | done].
    + by rewrite <- app_assoc.
    + destruct Hat as (-> & _). done.
    + lia.
    + by rewrite <- app_assoc.
    + by rewrite <- app_assoc.
    + apply Forall2_app.
      * eapply Forall2_impl_l; [exact Hdone | |].
        { apply Forall_forall. intros d Hd. exact Hd. }
        intros d kv Hd Hmd. simpl in *.
        apply (mirrors_weaken n s1 P1 (length (items s))); [| lia | lia].
        eapply mirrors_frame; [exact Hmd |].
        intros y [->|Hy]; [| apply Hfr; lia].
        apply Hfr.
        -- rewrite Forall_forall in Hbd.
           assert (d ∈ done ++ c :: todo) as Hin by (apply elem_of_app; by left).
           apply Hbd in Hin. lia.
        -- intros ->. apply NoDup_app in Hnd as (_ & Hdisj & _).
           apply (Hdisj c Hd), list_elem_of_here.
      * constructor; [| constructor]. simpl.
        apply (mirrors_weaken n s1 (length (items s)) (length (items s1))); [done | lia | lia].
    + apply NoDup_app in Hnd as (_ & _ & Hnd'). apply NoDup_cons in Hnd' as [Hc' _].
      eapply Forall2_impl_l; [exact Htodo | |].
      { apply Forall_forall. intros d Hd. exact Hd. }
      intros d kv Hd [Hdi Hdm]. simpl in *.
      assert (d < P1 ∧ d ≠ c) as [Hd1 Hd2].
      { split; [| intros ->; done].
        rewrite Forall_forall in Hbd.
        assert (d ∈ done ++ c :: todo) as Hin
          by (apply elem_of_app; right; by apply list_elem_of_further).
        apply Hbd in Hin. lia. }
      destruct (Hfr' d Hd1 Hd2) as [Hi Hm']. split; congruence.
    + done.
    + exists s'. rewrite length_app in Hloop. simpl in Hloop.
      replace (length done + 1) with (S (length done)) in Hloop by lia.
      split_and!.
      * simpl. unfold bind at 1. unfold bind at 1. unfold child at 1.
        rewrite Hit, Hkids, list_lookup_middle by done. rewrite Hrun. exact Hloop.
      * done.
      * by rewrite <- !app_assoc in Hall.
      * lia.
      * intros y Hy. destruct (Hfr2 y Hy) as [-> ->]. apply Hfr; lia.
      * by eapply same_attributes_trans.
Qed.

(** [setExpanded(True)] on a row that [add] has just made emits the signal,
    and [expanded] runs what the registry holds for the row. *)
Lemma setExpanded_lazy_row s x k v :
  lazy_row s x k v → x ≠ _root s →
  setExpanded_True x s = call (entry_handler x v) x (mark_expanded x s).
Proof.
  intros [Hit Hreg] Hne. unfold setExpanded_True.
  rewrite decide_False by done. rewrite Hit. simpl.
  unfold expanded. simpl. by rewrite Hreg.
Qed.

Lemma entries_scalar v : is_container v = false → entries v = [].
Proof. by destruct v. Qed.

Lemma get_childCount_run s x it :
  items s !! x = Some it → get_childCount x s = (Ok (length (children it)), s).
Proof. intros H. unfold get_childCount, gets. by rewrite H. Qed.

(** [expand_all_items] on the row of an entry, with fuel beyond the depth of
    the entry's value: it returns, and the row mirrors the entry. *)
Lemma expand_all_items_rows n : expands_rows (expand_all_items n) n.
Proof.
  induction n as [|n IH]; intros s x k v Hdepth Hrow Hroot Hne; [lia |].
  pose proof Hrow as [Hit Hreg].
  pose proof (lookup_lt_Some _ _ _ Hit) as Hx.
  simpl. unfold bind at 1. rewrite (setExpanded_lazy_row s x k v) by done.
  set (s0 := mark_expanded x s).
  assert (length (items s0) = length (items s)) as HL0
    by (unfold s0, mark_expanded; simpl; apply length_alter).
  assert (items s0 !! x =
            Some (mkItem (row_columns k v) (if is_container v then [S x] else []) true true))
    as Hit0 by (unfold s0, mark_expanded; simpl; by rewrite list_lookup_alter_eq, Hit).
  assert (∀ y, y ≠ x → items s0 !! y = items s !! y) as Hfr0.
  { intros y Hy. unfold s0, mark_expanded. simpl. by apply list_lookup_alter_ne. }
  assert (_item_map s0 = _item_map s) as Hm0 by done.
  assert (same_attributes s s0) as Hat0 by by repeat split.
  clearbody s0.
  destruct (is_container v) eqn:Hcont; unfold entry_handler; rewrite Hcont; simpl.
  - (* a container: the closure populates the row, then the loop runs *)
    destruct (populate_spec v x (S x) s0 _ Hit0)
      as (s2 & Hrun & Hit2 & Hreg2 & Hlen2 & Hfr2 & Hfm2 & Hrows & Hbd2 & Hat2).
    simpl in Hit2. rewrite decide_True in Hit2 by done. simpl in Hit2.
    rewrite HL0 in *. rewrite Hrun.
    unfold bind at 1. rewrite (get_childCount_run s2 x _ Hit2). simpl.
    set (ks := row_ids (length (items s)) (entries v)) in *.
    destruct (expand_children (expand_all_items n) n x (length (items s)) (length (items s2))
                _ IH Hx ks (entries v) [] [] s2 Hit2)
      as (s3 & Hloop & Hit3 & Hall & Hlen3 & Hfr3 & Hat3).
    + done.
    + destruct Hat2 as (-> & _), Hat0 as (-> & _). done.
    + done.
    + apply row_ids_NoDup.
    + simpl. apply Forall_forall. intros c Hc. split.
      * pose proof (row_ids_bounds (entries v) (length (items s))) as Hb.
        rewrite Forall_forall in Hb. by apply Hb.
      * rewrite Forall_forall in Hbd2. by apply Hbd2.
    + constructor.
    + done.
    + apply Forall_forall. intros [k' v'] Hin. simpl.
      apply entries_depth in Hin. lia.
    + exists s3. simpl in Hloop, Hall. split_and!.
      * exact Hloop.
      * exists ks. split_and!.
        -- done.
        -- destruct (Hfr3 x Hx) as [_ ->]. done.
        -- apply Forall_forall. intros c Hc. split.
           ++ pose proof (row_ids_bounds (entries v) (length (items s))) as Hb.
              rewrite Forall_forall in Hb. by apply Hb.
           ++ rewrite Forall_forall in Hbd2. apply Hbd2 in Hc. lia.
        -- eapply Forall2_impl; [exact Hall |]. simpl. intros c kv Hm.
           eapply mirrors_weaken; [exact Hm | lia | lia].
      * lia.
      * intros y Hy Hyx. destruct (Hfr3 y Hy) as [-> ->].
        rewrite Hfr2, Hfm2 by done. rewrite Hfr0 by done. by rewrite Hm0.
      * eapply same_attributes_trans; [| exact Hat3].
        eapply same_attributes_trans; [| exact Hat2]. done.
  - (* a leaf: [good] does nothing and there are no children *)
    unfold ret. unfold bind at 1. rewrite (get_childCount_run s0 x _ Hit0). simpl.
    exists s0. unfold ret. split_and!.
    + done.
    + exists []. rewrite entries_scalar by done.
      split_and!; [done | | constructor | constructor].
      rewrite Hm0, Hreg. unfold entry_handler. by rewrite Hcont.
    + lia.
    + intros y Hy Hyx. split; [by apply Hfr0 | by rewrite Hm0].
    + done.
Qed.

(** ** load *)

(** [load] on a readable file that parses, with fuel beyond the depth of
    the document: it returns, the attributes are updated, and below the
    root every entry of the document is mirrored by rows made during the
    call; no older item but the root is touched. *)
Lemma load_spec (yaml_load : string → option PyVal) n fname s text content rit :
  files s !! fname = Some text →
  yaml_load text = Some content →
  items s !! _root s = Some rit →
  depth content ≤ n →
  ∃ s' ks, load yaml_load (S n) fname s = (Ok (), s') ∧
           same_attributes (with_content (Some content) (with_fname (Some fname) s)) s' ∧
           items s' !! _root s = Some (mkItem (columns rit) ks (isExpanded rit) (editable rit)) ∧
           _item_map s' !! _root s = Some good ∧
           Forall (λ c, length (items s) ≤ c < length (items s')) ks ∧
           Forall2 (λ c kv, mirrors n s' (length (items s)) (length (items s')) c kv.1 kv.2)
             ks (entries content) ∧
           (∀ y, y < length (items s) → y ≠ _root s →
                 items s' !! y = items s !! y ∧ _item_map s' !! y = _item_map s !! y).
Proof.
  intros Hfile Hyaml Hrit Hdepth.
  pose proof (lookup_lt_Some _ _ _ Hrit) as Hroot.
  unfold load, bind, read_file. rewrite Hfile, Hyaml.
  unfold modify, gets, takeChildren, update_item, modify. simpl.
  set (sb := with_items _ _).
  assert (length (items sb) = length (items s)) as HLb by (unfold sb; simpl; apply length_alter).
  assert (items sb !! _root s = Some (mkItem (columns rit) [] (isExpanded rit) (editable rit)))
    as Hitb by (unfold sb; simpl; by rewrite list_lookup_alter_eq, Hrit).
  assert (∀ y, y ≠ _root s → items sb !! y = items s !! y) as Hfrb.
  { intros y Hy. unfold sb. simpl. by apply list_lookup_alter_ne. }
  assert (_item_map sb = _item_map s) as Hmb by done.
  assert (same_attributes (with_content (Some content) s) sb) as Hatb by by repeat split.
  clearbody sb.
  destruct (populate_spec content (_root s) (_marker s) sb _ Hitb)
    as (sc & Hrun & Hitc & Hregc & Hlenc & Hfrc & Hfmc & Hrows & Hbdc & Hatc).
  simpl in Hitc. rewrite HLb in *. rewrite Hrun.
  set (ks := row_ids (length (items s)) (entries content)) in *.
  set (sd := with_fname (Some fname) sc).
  assert (_root sd = _root s) as Hrootd.
  { destruct Hatc as (Hr & _), Hatb as (Hr' & _). unfold sd. simpl in *. congruence. }
  unfold bind at 1. unfold setExpanded_True at 1. rewrite Hrootd, decide_True by done.
  unfold bind at 1. rewrite (get_childCount_run sd (_root s) _ Hitc). simpl.
  destruct (expand_children (expand_all_items n) n (_root s) (length (items s))
              (length (items sc)) _ (expand_all_items_rows n) Hroot ks (entries content)
              [] [] sd Hitc)
    as (s' & Hloop & Hit' & Hall & Hlen' & Hfr' & Hat').
  - done.
  - by rewrite Hrootd.
  - done.
  - apply row_ids_NoDup.
  - simpl. apply Forall_forall. intros c Hc. split.
    + pose proof (row_ids_bounds (entries content) (length (items s))) as Hb.
      rewrite Forall_forall in Hb. by apply Hb.
    + rewrite Forall_forall in Hbdc. by apply Hbdc.
  - constructor.
  - exact Hrows.
  - apply Forall_forall. intros [k' v'] Hin. simpl.
    apply entries_depth in Hin. lia.
  - exists s', ks. simpl in Hloop, Hall, Hlen'. split_and!.
    + exact Hloop.
    + eapply same_attributes_trans; [| exact Hat'].
      destruct Hatc as (?&?&?&?&?), Hatb as (?&?&?&?&?). unfold sd. simpl in *.
      split_and!; simpl; congruence.
    + done.
    + destruct (Hfr' (_root s) Hroot) as [_ ->]. done.
    + apply Forall_forall. intros c Hc. split.
      * pose proof (row_ids_bounds (entries content) (length (items s))) as Hb.
        rewrite Forall_forall in Hb. by apply Hb.
      * rewrite Forall_forall in Hbdc. apply Hbdc in Hc. lia.
    + eapply Forall2_impl; [exact Hall |]. simpl. intros c kv Hm.
      eapply mirrors_weaken; [exact Hm | lia | lia].
    + intros y Hy Hne. destruct (Hfr' y Hy) as [-> ->]. simpl.
      rewrite Hfrc, Hfmc by done. rewrite Hfrb by done. by rewrite Hmb.
Qed.

(** ** The tree after load *)

Lemma Forall2_elem_l {A B} (P : A → B → Prop) l k x :
  Forall2 P l k → x ∈ l → ∃ y, y ∈ k ∧ P x y.
Proof.
  induction 1 as [|a b l k Hab _ IH]; [by intros ?%elem_of_nil |].
  intros [->|Hin]%elem_of_cons.
  - exists b. split; [apply list_elem_of_here | done].
  - destruct (IH Hin) as (y & Hy & HP). exists y. split; [by apply list_elem_of_further | done].
Qed.

Lemma mirrors_child n s lo hi x k v c :
  mirrors n s lo hi x k v → child_of s x c →
  ∃ n' k' v', mirrors n' s lo hi c k' v'.
Proof.
  destruct n as [|n]; [done |].
  intros (ks & Hit & _ & _ & Hks) (it & Hit' & Hc). simplify_eq. simpl in Hc.
  destruct (Forall2_elem_l _ _ _ _ Hks Hc) as ([k' v'] & _ & Hm). by exists n, k', v'.
Qed.

Lemma mirrors_registered n s lo hi x k v :
  mirrors n s lo hi x k v → _item_map s !! x = Some good.
Proof. destruct n; [done |]. by intros (ks & _ & Hreg & _). Qed.

Lemma mirrors_populated n s lo hi x k v :
  mirrors n s lo hi x k v → populated s x.
Proof.
  intros Hm. split; [by eapply mirrors_registered |].
  intros c Hc (zi & _ & _ & Hnone).
  destruct (mirrors_child _ _ _ _ _ _ _ _ Hm Hc) as (n' & k' & v' & Hm').
  apply mirrors_registered in Hm'. congruence.
Qed.

Lemma mirrors_below n s lo hi x k v y :
  mirrors n s lo hi x k v → rtc (child_of s) x y → populated s y.
Proof.
  intros Hm Hr. revert n k v Hm. induction Hr as [x|x c y Hc _ IH]; intros n k v Hm.
  - by eapply mirrors_populated.
  - destruct (mirrors_child _ _ _ _ _ _ _ _ Hm Hc) as (n' & k' & v' & Hm'). by eapply IH.
Qed.

(** ** What save writes after load *)

Lemma enumerate_from_map {A B} (f : A → B) (l : list A) n :
  enumerate_from n (map f l) = map (λ nd, (nd.1, f nd.2)) (enumerate_from n l).
Proof. revert n. induction l as [|a l IH]; intros n; simpl; [done | by rewrite IH]. Qed.

Lemma enumerate_from_fst {A} (l : list A) n : (enumerate_from n l).*1 = seq n (length l).
Proof. revert n. induction l as [|a l IH]; intros n; csimpl; [done | by rewrite IH]. Qed.

Lemma saved_form_entries v :
  entries v ≠ [] → saved_form v = PDict (map (λ kv, (kv.1, saved_form kv.2)) (entries v)).
Proof.
  destruct v as [a|l|d]; simpl; [done | |].
  - destruct l as [|x l]; [done |]. intros _. f_equal.
    unfold enumerate. rewrite enumerate_from_map, !map_map. done.
  - destruct d as [|kv d]; [done |]. intros _. f_equal.
    apply map_ext. by intros [??].
Qed.

Lemma saved_form_leaf k v :
  entries v = [] → saved_form v = PStr (nth 1 (row_columns k v) "").
Proof.
  destruct v as [a|l|d]; simpl; [done | |].
  - by destruct l.
  - by intros ->.
Qed.

Lemma row_columns_label k v : nth 0 (row_columns k v) "" = k.
Proof. by destruct v. Qed.

Lemma valid_keys_entries v :
  valid_keys v → NoDup ((entries v).*1) ∧ Forall (λ kv, valid_keys kv.2) (entries v).
Proof.
  destruct v as [a|l|d]; simpl.
  - intros _. split; constructor.
  - intros Hl. split.
    + rewrite <- list_fmap_compose.
      replace ((fst ∘ (λ nd : nat * PyVal, (pretty nd.1, nd.2))) <$> enumerate l)
        with (pretty <$> (enumerate l).*1) by (by rewrite <- list_fmap_compose).
      unfold enumerate. rewrite enumerate_from_fst.
      apply (NoDup_fmap_2 _), NoDup_seq.
    + apply Forall_fmap. unfold enumerate. generalize 0.
      induction l as [|x l IH]; intros n; simpl; [constructor |].
      destruct Hl as [Hx Hl]. constructor; [done | by apply IH].
  - intros [Hnd Hd]. split; [done |].
    clear Hnd. induction d as [|[k x] d IH]; [constructor |].
    destruct Hd as [Hx Hd]. constructor; [done | by apply IH].
Qed.

Lemma children_to_dict_map h conv (f : PyVal → PyVal) ks es : ∀ result,
  Forall2 (λ c kv, ∃ ci, h !! c = Some ci ∧ text ci 0 = kv.1 ∧ conv c = Some (f kv.2)) ks es →
  children_to_dict h conv ks result =
    Some (assign_all (map (λ kv, (kv.1, f kv.2)) es) result).
Proof.
  intros result H. revert result.
  induction H as [|c kv ks es (ci & Hci & Hk & Hv) _ IH]; intros result; [done |].
  simpl. rewrite Hci, Hv, Hk. apply IH.
Qed.

Lemma mirrors_row n s lo hi c k v :
  mirrors n s lo hi c k v → ∃ ci, items s !! c = Some ci ∧ text ci 0 = k.
Proof.
  destruct n; [done |]. intros (ks & Hit & _). eexists. split; [exact Hit |].
  unfold text. simpl. apply row_columns_label.
Qed.

Lemma map_fst_second {A B C} (f : B → C) (l : list (A * B)) :
  (map (λ kv, (kv.1, f kv.2)) l).*1 = l.*1.
Proof. induction l as [|[??] l IH]; csimpl; [done | by rewrite IH]. Qed.

(** The converter on a mirrored row returns the saved form of the value. *)
Lemma mirrors_item_to_dict n : ∀ s lo hi x k v,
  mirrors n s lo hi x k v → valid_keys v →
  item_to_dict n (items s) x = Some (saved_form v).
Proof.
  induction n as [|n IH]; intros s lo hi x k v; [done |].
  intros (ks & Hit & _ & _ & Hks) Hvalid. simpl. rewrite Hit.
  unfold childCount, text. simpl.
  destruct (valid_keys_entries v Hvalid) as [Hnd Hvs].
  destruct ks as [|c ks].
  - apply Forall2_nil_inv_l in Hks. simpl. by rewrite (saved_form_leaf k).
  - rewrite decide_False by done.
    assert (entries v ≠ []) as Hne by (intros Heq; rewrite Heq in Hks; inversion Hks).
    rewrite (children_to_dict_map _ _ saved_form (c :: ks) (entries v)).
    + simpl. rewrite assign_all_NoDup_id by by rewrite map_fst_second.
      by rewrite saved_form_entries.
    + clear -Hks Hvs IH. induction Hks as [|c' kv ks' es Hm _ IHk]; [constructor |].
      apply Forall_cons in Hvs as [Hv Hvs]. constructor; [| by apply IHk].
      destruct (mirrors_row _ _ _ _ _ _ _ Hm) as (ci & Hci & Hlab).
      exists ci. split_and!; [done | done |]. by eapply IH.
Qed.

(** The loop over the root on a tree whose rows mirror the entries. *)
Lemma mirrors_root_dict n s lo hi root rit content :
  items s !! root = Some rit →
  Forall2 (λ c kv, mirrors n s lo hi c kv.1 kv.2) (children rit) (entries content) →
  valid_keys content →
  root_dict n (items s) root = Some (saved_root content).
Proof.
  intros Hrit Hks Hvalid. unfold root_dict, saved_root. rewrite Hrit.
  destruct (valid_keys_entries content Hvalid) as [Hnd Hvs].
  rewrite (children_to_dict_map _ _ saved_form (children rit) (entries content)).
  - simpl. by rewrite assign_all_NoDup_id by by rewrite map_fst_second.
  - clear -Hks Hvs. induction Hks as [|c' kv ks' es Hm _ IHk]; [constructor |].
    apply Forall_cons in Hvs as [Hv Hvs]. constructor; [| by apply IHk].
    destruct (mirrors_row _ _ _ _ _ _ _ Hm) as (ci & Hci & Hlab).
    exists ci. split_and!; [done | done |]. by eapply mirrors_item_to_dict.
Qed.

Lemma dict_get_map (f : PyVal → PyVal) d k :
  dict_get (map (λ kv, (kv.1, f kv.2)) d) k = f <$> dict_get d k.
Proof.
  induction d as [|[k0 v0] d IH]; simpl; [done |].
  by destruct (decide (k0 = k)).
Qed.

Lemma saved_form_persists : ∀ path v t,
  scalar_at v path = Some t → scalar_at (saved_form v) path = Some t.
Proof.
  induction path as [|k path IH]; intros v t; simpl.
  - destruct v as [a|l|d]; [| done | done]. simpl. done.
  - destruct (dict_get (entries v) k) as [v'|] eqn:Hget; [| done]. intros Hv'.
    assert (entries v ≠ []) as Hne by (intros Heq; by rewrite Heq in Hget).
    rewrite saved_form_entries by done. simpl.
    rewrite dict_get_map, Hget. simpl. by apply IH.
Qed.

(** The dictionary saved for a container document holds every scalar of the
    document. *)
Lemma saved_root_persists content :
  is_container content = true → persists content (saved_root content).
Proof.
  intros Hc [|k path] t; simpl.
  - by destruct content.
  - unfold saved_root. simpl. rewrite dict_get_map.
    destruct (dict_get (entries content) k) as [v'|]; [| done]. simpl.
    apply saved_form_persists.
Qed.

Lemma save_run yaml_dump n file s d :
  root_dict n (items s) (_root s) = Some d →
  save yaml_dump n file s = (Ok (), with_files (<[file := yaml_dump d]>) s).
Proof.
  intros Hd. unfold save, bind, modify, gets, tree_to_yaml. simpl. rewrite Hd.
  unfold with_files. simpl. by rewrite insert_insert_eq.
Qed.

(** ** The claims about load and save *)

(** C6, in the form that holds. After [load(path)] on a readable file that parses (with
    recursion budget beyond the depth of the document) the call returns,
    every node of the tree is populated (its registry entry is [good] and no
    child of it is a placeholder) and the recorded path is [path]; and when
    the top-level value is a dictionary or a list, an immediate save writes
    the dump of a value that holds every scalar of the document under its
    path of keys. *)
Theorem load_expands_everything (yaml_load : string → option PyVal) (yaml_dump : PyVal → string)
    (n : nat) (path file text : string) (s : YamlViewer) (content : PyVal) :
  files s !! path = Some text →
  yaml_load text = Some content →
  is_Some (items s !! _root s) →
  depth content ≤ n →
  ∃ s', load yaml_load (S n) path s = (Ok (), s') ∧
        (∀ x, in_tree s' x → populated s' x) ∧
        _fname s' = Some path ∧
        (is_container content = true → valid_keys content →
         ∃ saved, save yaml_dump n file s'
                    = (Ok (), with_files (<[file := yaml_dump saved]>) s') ∧
                  persists content saved).
Proof.
  intros Hfile Hyaml [rit Hrit] Hdepth.
  destruct (load_spec yaml_load n path s text content rit Hfile Hyaml Hrit Hdepth)
    as (s' & ks & Hrun & (Hroot & _ & Hfname & _) & Hit' & Hreg' & _ & Hks & _).
  simpl in Hroot, Hfname.
  exists s'. split_and!; [done | | done |].
  - intros x Hx. unfold in_tree in Hx. rewrite Hroot in Hx.
    apply rtc_inv in Hx as [<-|(c & (it & Hit & Hc) & Hcx)].
    + split; [done |]. intros c (it & Hit & Hc) (zi & _ & _ & Hnone). simplify_eq. simpl in Hc.
      destruct (Forall2_elem_l _ _ _ _ Hks Hc) as ([k v] & _ & Hm).
      apply mirrors_registered in Hm. congruence.
    + simplify_eq. simpl in Hc.
      destruct (Forall2_elem_l _ _ _ _ Hks Hc) as ([k v] & _ & Hm).
      by eapply mirrors_below.
  - intros Hcont Hvalid. exists (saved_root content). split.
    + apply save_run. rewrite Hroot. by eapply mirrors_root_dict.
    + by apply saved_root_persists.
Qed.

Lemma load_expands_everything_witness :
  ∃ s', load (λ _, Some example_doc) 3 "doc.yaml" (YamlViewer_init {["doc.yaml" := "{a: 1, b: {c: 2, d: 3}, e: [4, 5]}"]})
          = (Ok (), s') ∧
        _fname s' = Some "doc.yaml" ∧
        ∃ saved, save (λ _, "dumped") 2 "out.yaml" s'
                   = (Ok (), with_files (<["out.yaml" := "dumped"]>) s') ∧
                 persists example_doc saved.
Proof.
  destruct (load_expands_everything (λ _, Some example_doc) (λ _, "dumped") 2
              "doc.yaml" "out.yaml" "{a: 1, b: {c: 2, d: 3}, e: [4, 5]}" (YamlViewer_init {["doc.yaml" := "{a: 1, b: {c: 2, d: 3}, e: [4, 5]}"]}) example_doc)
    as (s' & Hrun & _ & Hfname & Hsave).
  - simpl. apply lookup_singleton_eq.
  - reflexivity.
  - eexists. reflexivity.
  - vm_compute. lia.
  - exists s'. split_and!; [assumption | assumption |].
    apply Hsave; [reflexivity |].
    simpl. split_and!; try exact I; apply (bool_decide_unpack _); vm_compute; exact I.
Defined.

(** C6 without the condition on the top-level value fails for a document
    that is a single scalar: [load] succeeds, and the value an immediate save dumps is the
    empty dictionary, in which the scalar is not found. *)
Lemma scalar_document_not_persisted :
  ∃ s', load (λ _, Some (PStr "hello")) 1 "doc.yaml" (YamlViewer_init {["doc.yaml" := "hello"]})
          = (Ok (), s') ∧
        (∀ yaml_dump : PyVal → string,
           save yaml_dump 0 "out.yaml" s'
             = (Ok (), with_files (<["out.yaml" := yaml_dump (PDict [])]>) s')) ∧
        ¬ persists (PStr "hello") (PDict []).
Proof.
  eexists. split_and!.
  - vm_compute. reflexivity.
  - intros yaml_dump. by apply save_run.
  - intros H. specialize (H [] "hello" eq_refl). discriminate.
Qed.

(** C10. When the document is a scalar, [populate] gives the root no
    children, so the tree is empty after [load], and a save then writes the
    dump of the empty dictionary, which is not the document. *)
Theorem scalar_document_saves_empty (yaml_load : string → option PyVal)
    (yaml_dump : PyVal → string) (n m : nat) (path file text : string) (s : YamlViewer)
    (a : Scalar) :
  files s !! path = Some text →
  yaml_load text = Some (PScalar a) →
  is_Some (items s !! _root s) →
  ∃ s' rit, load yaml_load (S n) path s = (Ok (), s') ∧
            items s' !! _root s' = Some rit ∧
            children rit = [] ∧
            save yaml_dump m file s'
              = (Ok (), with_files (<[file := yaml_dump (PDict [])]>) s') ∧
            PDict [] ≠ PScalar a.
Proof.
  intros Hfile Hyaml [rit Hrit].
  destruct (load_spec yaml_load n path s text (PScalar a) rit Hfile Hyaml Hrit)
    as (s' & ks & Hrun & (Hroot & _) & Hit' & _ & _ & Hks & _); [simpl; lia |].
  simpl in Hroot, Hks. apply Forall2_nil_inv_r in Hks as ->.
  exists s', (mkItem (columns rit) [] (isExpanded rit) (editable rit)).
  split_and!; try done.
  - by rewrite Hroot.
  - apply save_run. unfold root_dict. by rewrite Hroot, Hit'.
Qed.

Lemma scalar_document_saves_empty_witness :
  ∃ s' rit, load (λ _, Some (PInt 42)) 1 "doc.yaml" (YamlViewer_init {["doc.yaml" := "42"]})
              = (Ok (), s') ∧
            items s' !! _root s' = Some rit ∧ children rit = [] ∧
            save (λ _, "{}") 0 "out.yaml" s' = (Ok (), with_files (<["out.yaml" := "{}"]>) s').
Proof.
  destruct (scalar_document_saves_empty (λ _, Some (PInt 42)) (λ _, "{}") 0 0
              "doc.yaml" "out.yaml" "42" (YamlViewer_init {["doc.yaml" := "42"]}) (SInt 42))
    as (s' & rit & Hrun & Hit & Hkids & Hsave & _).
  - simpl. apply lookup_singleton_eq.
  - reflexivity.
  - eexists. reflexivity.
  - exists s', rit. split_and!; assumption.
Defined.

(** C5. When the file cannot be read, or its text does not parse, [load]
    raises and the state it leaves is the state it was called in: the tree,
    the registry and the recorded path are as they were. *)
Theorem load_failure_keeps_state (yaml_load : string → option PyVal) (fuel : nat)
    (path : string) (s : YamlViewer) :
  files s !! path = None ∨ (∃ text, files s !! path = Some text ∧ yaml_load text = None) →
  ∃ e, load yaml_load fuel path s = (Raise e, s) ∧ (e = IOError ∨ e = YAMLError).
Proof.
  intros [Hnone|(text & Hfile & Hparse)]; unfold load, bind, read_file.
  - rewrite Hnone. exists IOError. split; [done | by left].
  - rewrite Hfile, Hparse. exists YAMLError. split; [done | by right].
Qed.

Lemma load_failure_keeps_state_witness :
  ∃ e, load (λ _, None) 5 "doc.yaml" example_lazy = (Raise e, example_lazy) ∧
       (e = IOError ∨ e = YAMLError).
Proof.
  apply (load_failure_keeps_state (λ _, None) 5 "doc.yaml" example_lazy).
  left. reflexivity.
Defined.

(** The markers of the container rows made by the loop of [populate]. *)
Lemma add_loop_markers es : ∀ s item it s',
  items s !! item = Some it →
  for_each es (λ kv, add item kv.1 kv.2) s = (Ok (), s') →
  Forall2 (λ c kv, is_container kv.2 = true →
                   items s' !! S c = Some (mkItem ["marker"] [] false false))
    (row_ids (length (items s)) es) es.
Proof.
  induction es as [|[k v] es IH]; intros s item it s' Hit Hrun; [constructor |].
  pose proof (lookup_lt_Some _ _ _ Hit) as Hlt.
  simpl in Hrun. unfold bind at 1 in Hrun. rewrite add_run in Hrun.
  set (L := length (items s)) in *.
  set (s1 := mkViewer _ _ _ _ _ _ _) in Hrun.
  assert (length (items s1) = L + length (new_rows L k v)) as HL1.
  { unfold s1. simpl. by rewrite length_alter, length_app. }
  assert (items s1 !! item = Some (push_child L it)) as Hit1.
  { unfold s1. simpl. rewrite list_lookup_alter_eq, lookup_app_l by done. by rewrite Hit. }
  destruct (add_loop es s1 item _ Hit1) as (s2 & Hrun2 & _ & _ & Hfr & _).
  rewrite Hrun in Hrun2. simplify_eq.
  simpl. constructor.
  - simpl. intros Hcont. rewrite Hfr.
    + unfold s1. simpl. rewrite list_lookup_alter_ne by (fold L; lia).
      rewrite lookup_app_r by (fold L; lia). fold L.
      replace (S L - L) with 1 by lia. unfold new_rows. by rewrite Hcont.
    + rewrite HL1. unfold new_rows. rewrite Hcont. simpl. lia.
    + lia.
  - rewrite <- HL1. by eapply IH.
Qed.

Lemma populate_markers v node ch s it s' :
  items s !! node = Some it →
  populate v node ch s = (Ok (), s') →
  Forall2 (λ c kv, is_container kv.2 = true →
                   items s' !! S c = Some (mkItem ["marker"] [] false false))
    (row_ids (length (items s)) (entries v)) (entries v).
Proof.
  intros Hit Hrun. rewrite populate_run in Hrun.
  set (s0 := mkViewer _ _ _ _ _ _ _) in Hrun.
  assert (items s0 !! node =
            Some (mkItem (columns it) (remove_first ch (children it)) (isExpanded it) (editable it)))
    as Hit0 by (unfold s0; simpl; by rewrite list_lookup_alter_eq, Hit).
  pose proof (add_loop_markers (entries v) s0 node _ s' Hit0 Hrun) as Hmk.
  by replace (length (items s0)) with (length (items s)) in Hmk
    by (unfold s0; simpl; by rewrite length_alter).
Qed.

(** C8. Loading [{"a": 1, "b": {"c": 2, "d": 3}, "e": [4, 5]}], whatever the
    viewer showed before, gives the root exactly the rows a, b, e in this
    order: a is a leaf that displays "1", b has children and no second
    column, e has children and displays "(list with 2 items)"; the children
    of b are c displaying "2" and d displaying "3", in this order.  And on
    the tree in which the root alone has been populated (the children taken
    and [populate] run, as the first steps of [load] do), b carries a marker
    and nothing else, and the expand handler gives it exactly the rows c and
    d. *)
Theorem example_scenario (yaml_load : string → option PyVal) (path text : string)
    (s : YamlViewer) :
  files s !! path = Some text →
  yaml_load text = Some example_doc →
  is_Some (items s !! _root s) →
  ∃ s' a b e c d e0 e1,
    load yaml_load 3 path s = (Ok (), s') ∧
    children <$> items s' !! _root s' = Some [a; b; e] ∧
    items s' !! a = Some (mkItem ["a"; "1"] [] true true) ∧
    items s' !! b = Some (mkItem ["b"] [c; d] true true) ∧
    items s' !! e = Some (mkItem ["e"; "(list with 2 items)"] [e0; e1] true true) ∧
    items s' !! c = Some (mkItem ["c"; "2"] [] true true) ∧
    items s' !! d = Some (mkItem ["d"; "3"] [] true true) ∧
    ∃ s1 s2 a' b' e' z c' d',
      (takeChildren (_root s) >> populate example_doc (_root s) (_marker s)) s = (Ok (), s1) ∧
      children <$> items s1 !! _root s = Some [a'; b'; e'] ∧
      items s1 !! a' = Some (mkItem ["a"; "1"] [] false true) ∧
      items s1 !! b' = Some (mkItem ["b"] [z] false true) ∧
      items s1 !! z = Some (mkItem ["marker"] [] false false) ∧
      (columns <$> items s1 !! e') = Some ["e"; "(list with 2 items)"] ∧
      expanded b' s1 = (Ok (), s2) ∧
      items s2 !! b' = Some (mkItem ["b"] [c'; d'] false true) ∧
      items s2 !! c' = Some (mkItem ["c"; "2"] [] false true) ∧
      items s2 !! d' = Some (mkItem ["d"; "3"] [] false true).
Proof.
  intros Hfile Hyaml [rit Hrit].
  destruct (load_spec yaml_load 2 path s text example_doc rit Hfile Hyaml Hrit)
    as (s' & ks & Hrun & (Hroot & _) & Hit' & _ & _ & Hks & _); [vm_compute; lia |].
  simpl in Hroot.
  change (entries example_doc)
    with [("a", PInt 1); ("b", PDict [("c", PInt 2); ("d", PInt 3)]);
          ("e", PList [PInt 4; PInt 5])] in Hks.
  apply Forall2_cons_inv_r in Hks as (a & ks1 & Hma & Hks & ->).
  apply Forall2_cons_inv_r in Hks as (b & ks2 & Hmb & Hks & ->).
  apply Forall2_cons_inv_r in Hks as (e & ks3 & Hme & Hks & ->).
  apply Forall2_nil_inv_r in Hks as ->.
  destruct Hma as (ksa & Hia & _ & _ & Hfa). apply Forall2_nil_inv_r in Hfa as ->.
  destruct Hmb as (ksb & Hib & _ & _ & Hfb).
  change (entries (PDict [("c", PInt 2); ("d", PInt 3)]))
    with [("c", PInt 2); ("d", PInt 3)] in Hfb.
  apply Forall2_cons_inv_r in Hfb as (c & kb1 & Hmc & Hfb & ->).
  apply Forall2_cons_inv_r in Hfb as (d & kb2 & Hmd & Hfb & ->).
  apply Forall2_nil_inv_r in Hfb as ->.
  destruct Hmc as (ksc & Hic & _ & _ & Hfc). apply Forall2_nil_inv_r in Hfc as ->.
  destruct Hmd as (ksd & Hid & _ & _ & Hfd). apply Forall2_nil_inv_r in Hfd as ->.
  destruct Hme as (kse & Hie & _ & _ & Hfe).
  change (entries (PList [PInt 4; PInt 5])) with [("0", PInt 4); ("1", PInt 5)] in Hfe.
  apply Forall2_cons_inv_r in Hfe as (e0 & ke1 & _ & Hfe & ->).
  apply Forall2_cons_inv_r in Hfe as (e1 & ke2 & _ & Hfe & ->).
  apply Forall2_nil_inv_r in Hfe as ->.
  exists s', a, b, e, c, d, e0, e1.
  split_and!; [done | by rewrite Hroot, Hit' | exact Hia | exact Hib | exact Hie
              | exact Hic | exact Hid |].
  (* the tree in which only the root is populated *)
  set (s0 := with_items
               (alter (λ it, mkItem (columns it) [] (isExpanded it) (editable it)) (_root s)) s).
  assert (items s0 !! _root s = Some (mkItem (columns rit) [] (isExpanded rit) (editable rit)))
    as Hit0 by (unfold s0; simpl; by rewrite list_lookup_alter_eq, Hrit).
  destruct (populate_spec example_doc (_root s) (_marker s) s0 _ Hit0)
    as (s1 & Hrun1 & Hit1 & _ & _ & _ & _ & Hrows1 & _ & _).
  pose proof (populate_markers _ _ _ _ _ _ Hit0 Hrun1) as Hmk1.
  simpl in Hit1.
  change (entries example_doc)
    with [("a", PInt 1); ("b", PDict [("c", PInt 2); ("d", PInt 3)]);
          ("e", PList [PInt 4; PInt 5])] in Hit1, Hrows1, Hmk1.
  set (L := length (items s0)) in *.
  change (row_ids L [("a", PInt 1); ("b", PDict [("c", PInt 2); ("d", PInt 3)]);
                     ("e", PList [PInt 4; PInt 5])])
    with [L; L + 1; L + 1 + 2] in Hit1, Hrows1, Hmk1.
  apply Forall2_cons in Hrows1 as [[Hra _] Hrows1].
  apply Forall2_cons in Hrows1 as [[Hrb Hregb] Hrows1].
  apply Forall2_cons in Hrows1 as [[Hre _] _].
  apply Forall2_cons in Hmk1 as [_ Hmk1].
  apply Forall2_cons in Hmk1 as [Hmb1 _].
  specialize (Hmb1 eq_refl).
  destruct (populate_spec (PDict [("c", PInt 2); ("d", PInt 3)]) (L + 1) (S (L + 1)) s1 _ Hrb)
    as (s2 & Hrun2 & Hit2 & _ & _ & _ & _ & Hrows2 & _ & _).
  simpl in Hit2. rewrite decide_True in Hit2 by done. simpl in Hit2.
  change (entries (PDict [("c", PInt 2); ("d", PInt 3)]))
    with [("c", PInt 2); ("d", PInt 3)] in Hrows2.
  set (L1 := length (items s1)) in *.
  change (row_ids L1 [("c", PInt 2); ("d", PInt 3)]) with [L1; L1 + 1] in Hrows2.
  apply Forall2_cons in Hrows2 as [[Hrc _] Hrows2].
  apply Forall2_cons in Hrows2 as [[Hrd _] _].
  exists s1, s2, L, (L + 1), (L + 1 + 2), (S (L + 1)), L1, (L1 + 1).
  split_and!.
  - exact Hrun1.
  - by rewrite Hit1.
  - exact Hra.
  - exact Hrb.
  - exact Hmb1.
  - by rewrite Hre.
  - unfold expanded. rewrite Hregb. exact Hrun2.
  - exact Hit2.
  - exact Hrc.
  - exact Hrd.
Qed.

Lemma example_scenario_witness :
  ∃ s' a b e,
    load (λ _, Some example_doc) 3 "doc.yaml"
      (with_files (λ _, {["doc.yaml" := "{a: 1, b: {c: 2, d: 3}, e: [4, 5]}"]}) example_lazy)
      = (Ok (), s') ∧
    children <$> items s' !! _root s' = Some [a; b; e] ∧
    items s' !! a = Some (mkItem ["a"; "1"] [] true true).
Proof.
  destruct (example_scenario (λ _, Some example_doc) "doc.yaml"
              "{a: 1, b: {c: 2, d: 3}, e: [4, 5]}"
              (with_files (λ _, {["doc.yaml" := "{a: 1, b: {c: 2, d: 3}, e: [4, 5]}"]})
                 example_lazy))
    as (s' & a & b & e & c & d & e0 & e1 & Hrun & Hkids & Ha & _).
  - unfold with_files. cbn [files]. apply lookup_singleton_eq.
  - reflexivity.
  - eexists. vm_compute. reflexivity.
  - exists s', a, b, e. split_and!; assumption.
Defined.

(** * Further properties of the methods *)

(** ** save *)

(** X1. [load] followed by [save]: for a readable file that parses into a
    value with distinct keys, the text written is the dump of
    [saved_root content]: scalars in their displayed form, lists as
    dictionaries keyed by position, containers without entries as the text
    of their second column; nothing but the target file changes in [save]. *)
Theorem load_then_save_value (yaml_load : string → option PyVal) (yaml_dump : PyVal → string)
    (n : nat) (path file text : string) (s : YamlViewer) (content : PyVal) :
  files s !! path = Some text →
  yaml_load text = Some content →
  is_Some (items s !! _root s) →
  depth content ≤ n →
  valid_keys content →
  ∃ s', load yaml_load (S n) path s = (Ok (), s') ∧
        save yaml_dump n file s'
          = (Ok (), with_files (<[file := yaml_dump (saved_root content)]>) s').
Proof.
  intros Hfile Hyaml [rit Hrit] Hdepth Hvalid.
  destruct (load_spec yaml_load n path s text content rit Hfile Hyaml Hrit Hdepth)
    as (s' & ks & Hrun & (Hroot & _) & Hit' & _ & _ & Hks & _).
  simpl in Hroot. exists s'. split; [done |].
  apply save_run. rewrite Hroot. by eapply mirrors_root_dict.
Qed.

Lemma load_then_save_value_witness :
  ∃ s', load (λ _, Some example_doc) 3 "doc.yaml"
          (YamlViewer_init {["doc.yaml" := "{a: 1, b: {c: 2, d: 3}, e: [4, 5]}"]}) = (Ok (), s') ∧
        save (λ _, "dumped") 2 "out.yaml" s'
          = (Ok (), with_files (<["out.yaml" := "dumped"]>) s').
Proof.
  apply (load_then_save_value (λ _, Some example_doc) (λ _, "dumped") 2 "doc.yaml" "out.yaml"
           "{a: 1, b: {c: 2, d: 3}, e: [4, 5]}"
           (YamlViewer_init {["doc.yaml" := "{a: 1, b: {c: 2, d: 3}, e: [4, 5]}"]}) example_doc).
  - simpl. apply lookup_singleton_eq.
  - reflexivity.
  - eexists. reflexivity.
  - vm_compute. lia.
  - simpl. split_and!; try exact I; apply (bool_decide_unpack _); vm_compute; exact I.
Defined.

(** What [saved_root] is on the example document. *)
Example saved_root_example :
  saved_root example_doc =
    PDict [("a", PStr "1"); ("b", PDict [("c", PStr "2"); ("d", PStr "3")]);
           ("e", PDict [("0", PStr "4"); ("1", PStr "5")])].
Proof. reflexivity. Qed.

(** ** The errors of load *)

Lemma no_rpe_total {A} (m : M A) :
  (∀ s, ∃ a s', m s = (Ok a, s')) → no_read_or_parse_error m.
Proof. intros Hm s e s' Hrun. destruct (Hm s) as (a & s1 & Hok). congruence. Qed.

Lemma no_rpe_bind {A B} (m : M A) (k : A → M B) :
  no_read_or_parse_error m → (∀ a, no_read_or_parse_error (k a)) →
  no_read_or_parse_error (bind m k).
Proof.
  intros Hm Hk s e s'. unfold bind. destruct (m s) as [[a|e1] s1] eqn:Hms.
  - apply Hk.
  - intros [= <- <-]. by eapply Hm.
Qed.

Lemma no_rpe_for_each {A} (l : list A) (body : A → M unit) :
  (∀ a, no_read_or_parse_error (body a)) → no_read_or_parse_error (for_each l body).
Proof.
  intros Hb. induction l as [|a l IH]; simpl.
  - apply no_rpe_total. intros s. by eexists _, _.
  - apply no_rpe_bind; [apply Hb | by intros _].
Qed.

Lemma populate_returns v item ch s : ∃ s', populate v item ch s = (Ok (), s').
Proof.
  rewrite populate_run. set (s0 := mkViewer _ _ _ _ _ _ _).
  generalize s0. clear s0. induction (entries v) as [|[k x] es IH]; intros s0.
  - by eexists.
  - simpl. unfold bind at 1. rewrite add_run. apply IH.
Qed.

Lemma no_rpe_expanded x : no_read_or_parse_error (expanded x).
Proof.
  intros s e s'. unfold expanded. destruct (_item_map s !! x) as [[|v y z]|]; simpl.
  - by intros [= <- <-].
  - intros Hrun. destruct (populate_returns v y z s) as (s1 & Hok). congruence.
  - by intros [= <- <-].
Qed.

Lemma no_rpe_setExpanded x : no_read_or_parse_error (setExpanded_True x).
Proof.
  intros s e s'. unfold setExpanded_True.
  case_decide; [by intros [= <- <-] |].
  destruct (items s !! x) as [it|]; [| by intros [= <- <-]].
  destruct (isExpanded it); [by intros [= <- <-] |].
  apply no_rpe_expanded.
Qed.

Lemma no_rpe_child x i : no_read_or_parse_error (child x i).
Proof.
  intros s e s'. unfold child.
  destruct (items s !! x) as [it|]; [destruct (children it !! i) |]; by intros [= <- <-].
Qed.

Lemma no_rpe_expand_all_items n : ∀ x, no_read_or_parse_error (expand_all_items n x).
Proof.
  induction n as [|n IH]; intros x; simpl.
  - by intros s e s' [= <- <-].
  - apply no_rpe_bind; [apply no_rpe_setExpanded | intros _].
    apply no_rpe_bind; [apply no_rpe_total; intros s; by eexists _, _ | intros m].
    apply no_rpe_for_each. intros i.
    apply no_rpe_bind; [apply no_rpe_child | apply IH].
Qed.

(** X3. When [load] raises [IOError] or [YAMLError], the state is the one
    it was called in, and the error tells the cause: [IOError] means the
    file could not be read, [YAMLError] that its text did not parse.  No
    later step of [load] (clearing the tree, [populate], expanding) raises
    either of the two. *)
Theorem load_error_leaves_state (yaml_load : string → option PyVal) (fuel : nat)
    (path : string) (s s' : YamlViewer) (e : Exn) :
  load yaml_load fuel path s = (Raise e, s') →
  e = IOError ∨ e = YAMLError →
  s' = s ∧
  (e = IOError ∧ files s !! path = None ∨
   e = YAMLError ∧ ∃ text, files s !! path = Some text ∧ yaml_load text = None).
Proof.
  intros Hrun He. unfold load, bind at 1, read_file in Hrun.
  destruct (files s !! path) as [text|] eqn:Hfile.
  - destruct (yaml_load text) as [content|] eqn:Hyaml.
    + exfalso. revert Hrun.
      match goal with |- ?m s = _ → _ => assert (no_read_or_parse_error m) as Hno end.
      { apply no_rpe_bind; [apply no_rpe_total; intros ?; by eexists _, _ | intros _].
        apply no_rpe_bind; [apply no_rpe_total; intros ?; by eexists _, _ | intros root].
        apply no_rpe_bind; [apply no_rpe_total; intros ?; by eexists _, _ | intros _].
        apply no_rpe_bind; [apply no_rpe_total; intros ?; by eexists _, _ | intros marker].
        apply no_rpe_bind; [apply no_rpe_total; intros s0; exists (); apply populate_returns | intros _].
        apply no_rpe_bind; [apply no_rpe_total; intros ?; by eexists _, _ | intros _].
        apply no_rpe_expand_all_items. }
      intros Hrun. destruct (Hno _ _ _ Hrun) as [H1 H2]. by destruct He.
    + unfold raise in Hrun. simplify_eq. split; [done |]. right. split; [done |]. by exists text.
  - simplify_eq. split; [done |]. by left.
Qed.

Lemma load_error_leaves_state_witness :
  example_lazy = example_lazy ∧
  (IOError = IOError ∧ files example_lazy !! "doc.yaml" = None ∨
   IOError = YAMLError ∧ ∃ text, files example_lazy !! "doc.yaml" = Some text ∧
                                 (λ _ : string, Some example_doc) text = None).
Proof.
  apply (load_error_leaves_state (λ _, Some example_doc) 2 "doc.yaml" example_lazy example_lazy
           IOError).
  - vm_compute. reflexivity.
  - left. reflexivity.
Defined.

(** ** populate works on one level *)

Lemma rows_made_cons k v es :
  rows_made ((k, v) :: es) = length (new_rows 0 k v) + rows_made es.
Proof.
  unfold rows_made, new_rows. rewrite filter_cons. simpl.
  destruct (is_container v); simpl; lia.
Qed.

Lemma new_rows_length_indep L k v : length (new_rows L k v) = length (new_rows 0 k v).
Proof. unfold new_rows. by destruct (is_container v). Qed.

Lemma add_loop_length es : ∀ s item,
  ∃ s', for_each es (λ kv, add item kv.1 kv.2) s = (Ok (), s') ∧
        length (items s') = length (items s) + rows_made es.
Proof.
  induction es as [|[k v] es IH]; intros s item.
  - exists s. split; [done |]. unfold rows_made. simpl. lia.
  - simpl. unfold bind at 1. rewrite add_run.
    set (s1 := mkViewer _ _ _ _ _ _ _).
    destruct (IH s1 item) as (s' & Hrun & Hlen). exists s'. split; [done |].
    rewrite Hlen, rows_made_cons. unfold s1. simpl.
    rewrite length_alter, length_app, new_rows_length_indep. lia.
Qed.

Lemma enumerate_from_filter_length (l : list PyVal) : ∀ n,
  length (filter (λ kv : string * PyVal, is_container kv.2 = true)
            (map (λ nd : nat * PyVal, (pretty nd.1, nd.2)) (enumerate_from n l)))
  = length (filter (λ x, is_container x = true) l).
Proof.
  induction l as [|x l IH]; intros n; simpl; [done |].
  rewrite !filter_cons. simpl. destruct (decide (is_container x = true)); simpl; by rewrite IH.
Qed.

(** X4. [populate] makes the rows of one level only.  When it returns, the
    store has grown by one item per entry plus one marker per entry that is
    itself a dictionary or a list, whatever those hold further down: for a
    dictionary the entries are its items, for a list its elements, and a
    scalar adds nothing. *)
Theorem populate_one_level (v : PyVal) (item ch : Id) (s s' : YamlViewer) :
  populate v item ch s = (Ok (), s') →
  length (items s') =
    length (items s) +
    match v with
    | PScalar _ => 0
    | PList l => length l + length (filter (λ x, is_container x = true) l)
    | PDict d => length d + length (filter (λ kv, is_container kv.2 = true) d)
    end.
Proof.
  intros Hrun. rewrite populate_run in Hrun. set (s0 := mkViewer _ _ _ _ _ _ _) in Hrun.
  destruct (add_loop_length (entries v) s0 item) as (s1 & Hrun1 & Hlen).
  rewrite Hrun in Hrun1. simplify_eq. rewrite Hlen.
  replace (length (items s0)) with (length (items s))
    by (unfold s0; simpl; by rewrite length_alter).
  f_equal. unfold rows_made. destruct v as [a|l|d]; [done | | done].
  rewrite entries_list_length. f_equal. simpl. apply enumerate_from_filter_length.
Qed.

Lemma populate_one_level_witness :
  length (items example_lazy) = length (items (YamlViewer_init ∅)) + (3 + 2).
Proof.
  apply (populate_one_level example_doc 0 1 (YamlViewer_init ∅) example_lazy).
  reflexivity.
Defined.

Lemma item_to_dict_unfold fuel h x :
  item_to_dict (S fuel) h x =
    match h !! x with
    | None => None
    | Some it =>
        if decide (childCount it = 0) then Some (PStr (text it 1))
        else PDict <$> children_to_dict h (item_to_dict fuel h) (children it) []
    end.
Proof. reflexivity. Qed.

Lemma item_to_dict_marker h c z cols e1 e2 fuel :
  h !! c = Some (mkItem cols [z] e1 e2) →
  h !! z = Some (mkItem ["marker"] [] false false) →
  item_to_dict (S (S fuel)) h c = Some (PDict [("marker", PStr "")]).
Proof.
  intros Hc Hz. rewrite item_to_dict_unfold, Hc.
  rewrite decide_False by done.
  change (children (mkItem cols [z] e1 e2)) with [z].
  unfold children_to_dict. rewrite item_to_dict_unfold, Hz. done.
Qed.

(** X5. A container row that has not been expanded is converted by
    [item_to_dict] into the dictionary [{"marker": ""}]: the converter takes
    the placeholder for a child, and the content of the container is not in
    the result. *)
Theorem unexpanded_container_saved_as_marker (v : PyVal) (node ch : Id) (s : YamlViewer)
    (it : QTreeWidgetItem) :
  items s !! node = Some it →
  ∃ s' ks, populate v node ch s = (Ok (), s') ∧
           (children <$> items s' !! node) = Some (remove_first ch (children it) ++ ks) ∧
           Forall2 (λ c kv, is_container kv.2 = true →
                            ∀ fuel, item_to_dict (S (S fuel)) (items s') c
                                    = Some (PDict [("marker", PStr "")]))
             ks (entries v).
Proof.
  intros Hit.
  destruct (populate_spec v node ch s it Hit)
    as (s' & Hrun & Hitem & _ & _ & _ & _ & Hrows & _ & _).
  exists s', (row_ids (length (items s)) (entries v)). split_and!; [done | by rewrite Hitem |].
  pose proof Hrun as Hrun'. rewrite populate_run in Hrun'.
  set (s0 := mkViewer _ _ _ _ _ _ _) in Hrun'.
  assert (items s0 !! node =
            Some (mkItem (columns it) (remove_first ch (children it)) (isExpanded it) (editable it)))
    as Hit0 by (unfold s0; simpl; by rewrite list_lookup_alter_eq, Hit).
  pose proof (add_loop_markers (entries v) s0 node _ s' Hit0 Hrun') as Hmk.
  replace (length (items s0)) with (length (items s)) in Hmk
    by (unfold s0; simpl; by rewrite length_alter).
  revert Hrows Hmk. generalize (row_ids (length (items s)) (entries v)). generalize (entries v).
  intros es ks Hrows. induction Hrows as [|c [k v'] ks es [Hc _] _ IH]; intros Hmk.
  - constructor.
  - apply Forall2_cons in Hmk as [Hm Hmk]. constructor; [| by apply IH].
    intros Hcont fuel. pose proof (Hm Hcont) as Hm'.
    change (items s' !! c = Some (mkItem (row_columns k v')
                                    (if is_container v' then [S c] else []) false true)) in Hc.
    change (is_container v' = true) in Hcont. rewrite Hcont in Hc. rename Hc into Hc'.
    by apply (item_to_dict_marker _ _ _ _ _ _ _ Hc').
Qed.

Lemma unexpanded_container_saved_as_marker_witness :
  ∃ s' ks, populate example_doc 0 1 (YamlViewer_init ∅) = (Ok (), s') ∧
           (children <$> items s' !! 0) = Some ks ∧ length ks = 3.
Proof.
  destruct (unexpanded_container_saved_as_marker example_doc 0 1 (YamlViewer_init ∅)
              (mkItem [] [] false false))
    as (s' & ks & Hrun & Hkids & Hall).
  - reflexivity.
  - exists s', ks. split_and!; [assumption | assumption |].
    apply Forall2_length in Hall. rewrite Hall. reflexivity.
Defined.

Lemma remove_first_notin ch l : ch ∉ l → remove_first ch l = l.
Proof.
  induction l as [|c l IH]; simpl; [done |].
  intros [Hne Hl]%not_elem_of_cons. rewrite decide_False by done. by rewrite IH.
Qed.

(** X6. The closure of a container row is not idempotent by itself: run a
    second time (not through the registry) it finds no marker to remove and
    appends a second row for every entry, so the node ends with two rows
    per entry. *)
Theorem populate_twice_appends_again (v : PyVal) (x z : Id) (s : YamlViewer)
    (it : QTreeWidgetItem) :
  items s !! x = Some it →
  children it = [z] →
  is_Some (items s !! z) →
  ∃ s1 s2 ks1 ks2,
    populate v x z s = (Ok (), s1) ∧
    populate v x z s1 = (Ok (), s2) ∧
    (children <$> items s1 !! x) = Some ks1 ∧
    (children <$> items s2 !! x) = Some (ks1 ++ ks2) ∧
    Forall2 (λ c kv, columns <$> items s2 !! c = Some (row_columns kv.1 kv.2)) ks1 (entries v) ∧
    Forall2 (λ c kv, columns <$> items s2 !! c = Some (row_columns kv.1 kv.2)) ks2 (entries v).
Proof.
  intros Hit Hkids [zi Hz]. apply lookup_lt_Some in Hz.
  destruct (populate_spec v x z s it Hit)
    as (s1 & Hrun1 & Hit1 & _ & Hlen1 & _ & _ & Hrows1 & Hbd1 & _).
  rewrite Hkids in Hit1. simpl in Hit1. rewrite decide_True in Hit1 by done. simpl in Hit1.
  destruct (populate_spec v x z s1 _ Hit1)
    as (s2 & Hrun2 & Hit2 & _ & Hlen2 & Hfr2 & _ & Hrows2 & _ & _).
  simpl in Hit2.
  pose proof (row_ids_bounds (entries v) (length (items s))) as Hb.
  rewrite remove_first_notin in Hit2.
  2:{ intros Hin. rewrite Forall_forall in Hb. apply Hb in Hin. lia. }
  exists s1, s2, (row_ids (length (items s)) (entries v)),
    (row_ids (length (items s1)) (entries v)).
  split_and!; [done | done | by rewrite Hit1 | by rewrite Hit2 | |].
  - eapply Forall2_impl_l; [exact Hrows1 | |].
    { apply Forall_and. split; [exact Hb | exact Hbd1]. }
    simpl. intros c kv [Hge Hlt] [Hc _]. rewrite Hfr2; [by rewrite Hc | done |].
    apply lookup_lt_Some in Hit. lia.
  - eapply Forall2_impl; [exact Hrows2 |]. simpl. intros c kv [Hc _]. by rewrite Hc.
Qed.

Lemma populate_twice_appends_again_witness :
  ∃ s1 s2 ks1 ks2,
    populate (PDict [("c", PInt 2); ("d", PInt 3)]) 3 4 example_lazy = (Ok (), s1) ∧
    populate (PDict [("c", PInt 2); ("d", PInt 3)]) 3 4 s1 = (Ok (), s2) ∧
    (children <$> items s2 !! 3) = Some (ks1 ++ ks2) ∧ length ks1 = 2 ∧ length ks2 = 2.
Proof.
  destruct (populate_twice_appends_again (PDict [("c", PInt 2); ("d", PInt 3)]) 3 4 example_lazy
              (mkItem ["b"] [4] false true))
    as (s1 & s2 & ks1 & ks2 & Hr1 & Hr2 & _ & Hk2 & Hf1 & Hf2).
  - reflexivity.
  - reflexivity.
  - eexists. reflexivity.
  - exists s1, s2, ks1, ks2. split_and!; try assumption.
    + apply Forall2_length in Hf1. rewrite Hf1. reflexivity.
    + apply Forall2_length in Hf2. rewrite Hf2. reflexivity.
Defined.

(** ** After load nothing is left to expand *)

Lemma for_each_noop {A} (l : list A) (body : A → M unit) s :
  Forall (λ a, body a s = (Ok (), s)) l → for_each l body s = (Ok (), s).
Proof.
  induction 1 as [|a l Ha _ IH]; [done |].
  simpl. unfold bind. by rewrite Ha.
Qed.

Lemma expand_loop_noop (E : Id → M unit) s x it :
  items s !! x = Some it →
  Forall (λ c, E c s = (Ok (), s)) (children it) →
  for_each (seq 0 (length (children it))) (λ i, do c <- child x i; E c) s = (Ok (), s).
Proof.
  intros Hit Hall. apply for_each_noop, Forall_forall. intros i Hi.
  apply elem_of_seq in Hi as [_ Hi]. simpl in Hi.
  destruct (lookup_lt_is_Some_2 (children it) i Hi) as [c Hc].
  unfold bind, child. rewrite Hit, Hc.
  rewrite Forall_forall in Hall. apply Hall. by eapply list_elem_of_lookup_2.
Qed.

(** [expand_all_items] on a mirrored row finds every item expanded already
    and leaves the state as it is. *)
Lemma mirrors_expand_noop n : ∀ s lo hi x k v,
  mirrors n s lo hi x k v → _root s < lo → x ≠ _root s →
  expand_all_items n x s = (Ok (), s).
Proof.
  induction n as [|n IH]; intros s lo hi x k v; [done |].
  intros (ks & Hit & _ & Hbd & Hks) Hroot Hne.
  simpl. unfold bind at 1. unfold setExpanded_True at 1.
  rewrite decide_False by done. rewrite Hit. simpl.
  unfold bind at 1. rewrite (get_childCount_run s x _ Hit). simpl.
  apply (expand_loop_noop (expand_all_items n) s x _ Hit). simpl.
  apply Forall_forall. intros c Hc.
  destruct (Forall2_elem_l _ _ _ _ Hks Hc) as ([k' v'] & _ & Hm).
  rewrite Forall_forall in Hbd. apply Hbd in Hc.
  eapply IH; [exact Hm | done | lia].
Qed.

Lemma tree_of_mirrors_populated s root rit n lo hi es :
  items s !! root = Some rit →
  _item_map s !! root = Some good →
  Forall2 (λ c kv, mirrors n s lo hi c kv.1 kv.2) (children rit) es →
  ∀ x, rtc (child_of s) root x → populated s x.
Proof.
  intros Hrit Hreg Hks x Hx.
  apply rtc_inv in Hx as [<-|(c & (it & Hit & Hc) & Hcx)].
  - split; [done |]. intros c (it & Hit & Hc) (zi & _ & _ & Hnone). simplify_eq.
    destruct (Forall2_elem_l _ _ _ _ Hks Hc) as ([k v] & _ & Hm).
    apply mirrors_registered in Hm. congruence.
  - simplify_eq. destruct (Forall2_elem_l _ _ _ _ Hks Hc) as ([k v] & _ & Hm).
    by eapply mirrors_below.
Qed.

(** X7. After a successful [load] there is nothing left to expand: the
    expand handler run on any node of the tree returns without changing the
    state, and so does a further [expand_all_items] on the root. *)
Theorem after_load_expansion_is_noop (yaml_load : string → option PyVal) (n : nat)
    (path text : string) (s : YamlViewer) (content : PyVal) :
  files s !! path = Some text →
  yaml_load text = Some content →
  is_Some (items s !! _root s) →
  depth content ≤ n →
  ∃ s', load yaml_load (S n) path s = (Ok (), s') ∧
        (∀ x, in_tree s' x → expanded x s' = (Ok (), s')) ∧
        expand_all_items (S n) (_root s') s' = (Ok (), s').
Proof.
  intros Hfile Hyaml [rit Hrit] Hdepth.
  pose proof (lookup_lt_Some _ _ _ Hrit) as Hlt.
  destruct (load_spec yaml_load n path s text content rit Hfile Hyaml Hrit Hdepth)
    as (s' & ks & Hrun & (Hroot & _) & Hit' & Hreg' & Hbd & Hks & _).
  simpl in Hroot. exists s'. rewrite Hroot. split_and!; [done | |].
  - intros x Hx. unfold in_tree in Hx. rewrite Hroot in Hx.
    destruct (tree_of_mirrors_populated s' (_root s) _ n _ _ _ Hit' Hreg' Hks x Hx) as [Hgood _].
    unfold expanded. by rewrite Hgood.
  - simpl. unfold bind at 1. unfold setExpanded_True at 1.
    rewrite Hroot, decide_True by done.
    unfold bind at 1. rewrite (get_childCount_run s' (_root s) _ Hit'). simpl.
    apply (expand_loop_noop (expand_all_items n) s' (_root s) _ Hit'). simpl.
    apply Forall_forall. intros c Hc.
    destruct (Forall2_elem_l _ _ _ _ Hks Hc) as ([k' v'] & _ & Hm).
    rewrite Forall_forall in Hbd. apply Hbd in Hc.
    eapply mirrors_expand_noop; [exact Hm | lia | lia].
Qed.

Lemma after_load_expansion_is_noop_witness :
  ∃ s', load (λ _, Some example_doc) 3 "doc.yaml"
          (YamlViewer_init {["doc.yaml" := "{a: 1, b: {c: 2, d: 3}, e: [4, 5]}"]}) = (Ok (), s') ∧
        expand_all_items 3 (_root s') s' = (Ok (), s').
Proof.
  destruct (after_load_expansion_is_noop (λ _, Some example_doc) 2 "doc.yaml"
              "{a: 1, b: {c: 2, d: 3}, e: [4, 5]}"
              (YamlViewer_init {["doc.yaml" := "{a: 1, b: {c: 2, d: 3}, e: [4, 5]}"]}) example_doc)
    as (s' & Hrun & _ & Hexp).
  - simpl. apply lookup_singleton_eq.
  - reflexivity.
  - eexists. reflexivity.
  - vm_compute. lia.
  - exists s'. split; assumption.
Defined.

(** ** load on a viewer that already shows a document *)

Lemma mirrors_child_bounds n s lo hi x k v c :
  mirrors n s lo hi x k v → child_of s x c → lo ≤ c < hi.
Proof.
  destruct n as [|n]; [done |].
  intros (ks & Hit & _ & Hbd & _) (it & Hit' & Hc). simplify_eq. simpl in Hc.
  rewrite Forall_forall in Hbd. by apply Hbd.
Qed.

Lemma mirrors_reach_bounds n s lo hi x k v y :
  mirrors n s lo hi x k v → lo ≤ x < hi → rtc (child_of s) x y → lo ≤ y < hi.
Proof.
  intros Hm Hx Hr. revert n k v Hm Hx. induction Hr as [x|x c y Hc _ IH]; intros n k v Hm Hx.
  - done.
  - destruct (mirrors_child _ _ _ _ _ _ _ _ Hm Hc) as (n' & k' & v' & Hm').
    eapply IH; [exact Hm' |]. exact (mirrors_child_bounds _ _ _ _ _ _ _ _ Hm Hc).
Qed.

(** X8. [load] builds the tree from items it makes itself: every node of
    the new tree other than the root is newer than everything in the store
    before the call, and the rows of the tree shown before, as well as their
    registry entries, stay in the store and in the registry as they were
    (the registry is never pruned). *)
Theorem load_builds_new_tree (yaml_load : string → option PyVal) (n : nat)
    (path text : string) (s : YamlViewer) (content : PyVal) :
  files s !! path = Some text →
  yaml_load text = Some content →
  is_Some (items s !! _root s) →
  depth content ≤ n →
  ∃ s', load yaml_load (S n) path s = (Ok (), s') ∧
        (∀ x, in_tree s' x → x = _root s ∨ length (items s) ≤ x) ∧
        (∀ y, y < length (items s) → y ≠ _root s →
              items s' !! y = items s !! y ∧ _item_map s' !! y = _item_map s !! y).
Proof.
  intros Hfile Hyaml [rit Hrit] Hdepth.
  destruct (load_spec yaml_load n path s text content rit Hfile Hyaml Hrit Hdepth)
    as (s' & ks & Hrun & (Hroot & _) & Hit' & _ & Hbd & Hks & Hfr).
  simpl in Hroot. exists s'. split_and!; [done | | done].
  intros x Hx. unfold in_tree in Hx. rewrite Hroot in Hx.
  apply rtc_inv in Hx as [<-|(c & (it & Hit & Hc) & Hcx)]; [by left |].
  right. simplify_eq. simpl in Hc.
  destruct (Forall2_elem_l _ _ _ _ Hks Hc) as ([k v] & _ & Hm).
  rewrite Forall_forall in Hbd. apply Hbd in Hc.
  by destruct (mirrors_reach_bounds _ _ _ _ _ _ _ _ Hm Hc Hcx).
Qed.

Lemma load_builds_new_tree_witness :
  ∃ s', load (λ _, Some example_doc) 3 "doc.yaml"
          (with_files (λ _, {["doc.yaml" := "{a: 1, b: {c: 2, d: 3}, e: [4, 5]}"]}) example_lazy)
          = (Ok (), s') ∧
        (∀ x, in_tree s' x →
              x = _root (with_files (λ _, {["doc.yaml" := "{a: 1, b: {c: 2, d: 3}, e: [4, 5]}"]})
                           example_lazy) ∨
              length (items (with_files
                               (λ _, {["doc.yaml" := "{a: 1, b: {c: 2, d: 3}, e: [4, 5]}"]})
                               example_lazy)) ≤ x) ∧
        (∀ y, y < length (items (with_files
                                   (λ _, {["doc.yaml" := "{a: 1, b: {c: 2, d: 3}, e: [4, 5]}"]})
                                   example_lazy)) →
              y ≠ _root (with_files (λ _, {["doc.yaml" := "{a: 1, b: {c: 2, d: 3}, e: [4, 5]}"]})
                           example_lazy) →
              items s' !! y =
                items (with_files (λ _, {["doc.yaml" := "{a: 1, b: {c: 2, d: 3}, e: [4, 5]}"]})
                         example_lazy) !! y ∧
              _item_map s' !! y =
                _item_map (with_files (λ _, {["doc.yaml" := "{a: 1, b: {c: 2, d: 3}, e: [4, 5]}"]})
                             example_lazy) !! y).
Proof.
  apply (load_builds_new_tree (λ _, Some example_doc) 2 "doc.yaml"
           "{a: 1, b: {c: 2, d: 3}, e: [4, 5]}"
           (with_files (λ _, {["doc.yaml" := "{a: 1, b: {c: 2, d: 3}, e: [4, 5]}"]}) example_lazy)
           example_doc).
  - unfold with_files. cbn [files]. apply lookup_singleton_eq.
  - reflexivity.
  - eexists. vm_compute. reflexivity.
  - vm_compute. lia.
Defined.



(** ** Nothing is ever removed *)

Lemma keeps_all_refl s : keeps_all s s.
Proof. by repeat split. Qed.

Lemma keeps_all_trans s1 s2 s3 : keeps_all s1 s2 → keeps_all s2 s3 → keeps_all s1 s3.
Proof.
  intros (H1 & H2 & H3 & H4) (H1' & H2' & H3' & H4').
  split_and!; [lia | set_solver | congruence | congruence].
Qed.

Lemma never_forgets_ret {A} (a : A) : never_forgets (ret a).
Proof. intros s r s' [= <- <-]. apply keeps_all_refl. Qed.

Lemma never_forgets_raise {A} e : never_forgets (@raise A e).
Proof. intros s r s' [= <- <-]. apply keeps_all_refl. Qed.

Lemma never_forgets_gets {A} (f : YamlViewer → A) : never_forgets (gets f).
Proof. intros s r s' [= <- <-]. apply keeps_all_refl. Qed.

Lemma never_forgets_bind {A B} (m : M A) (k : A → M B) :
  never_forgets m → (∀ a, never_forgets (k a)) → never_forgets (bind m k).
Proof.
  intros Hm Hk s r s'. unfold bind. destruct (m s) as [[a|e] s1] eqn:Hms.
  - intros Hks. eapply keeps_all_trans; [by eapply Hm | by eapply Hk].
  - intros [= <- <-]. by eapply Hm.
Qed.

Lemma never_forgets_for_each {A} (l : list A) (body : A → M unit) :
  (∀ a, never_forgets (body a)) → never_forgets (for_each l body).
Proof.
  intros Hb. induction l as [|a l IH]; simpl.
  - apply never_forgets_ret.
  - apply never_forgets_bind; [apply Hb | by intros _].
Qed.

Lemma never_forgets_update_item x f : never_forgets (update_item x f).
Proof.
  intros s r s' [= <- <-]. unfold with_items. split_and!; simpl; try done.
  by rewrite length_alter.
Qed.

Lemma never_forgets_register x h : never_forgets (register x h).
Proof.
  intros s r s' [= <- <-]. unfold with_item_map. split_and!; simpl; try done.
  rewrite dom_insert_L. set_solver.
Qed.

Lemma never_forgets_new_item cols : never_forgets (new_QTreeWidgetItem cols).
Proof.
  intros s r s' [= <- <-]. unfold with_items. split_and!; simpl; try done.
  rewrite length_app. lia.
Qed.

Lemma never_forgets_add item k v : never_forgets (add item k v).
Proof.
  destruct v; unfold add;
    repeat first
      [ apply never_forgets_bind; [| intros ?]
      | apply never_forgets_new_item
      | apply never_forgets_update_item
      | apply never_forgets_register ].
Qed.

Lemma never_forgets_populate v item ch : never_forgets (populate v item ch).
Proof.
  unfold populate.
  apply never_forgets_bind; [apply never_forgets_update_item | intros _].
  apply never_forgets_bind; [apply never_forgets_register | intros _].
  destruct v; [apply never_forgets_ret | |];
    apply never_forgets_for_each; intros ?; apply never_forgets_add.
Qed.

Lemma never_forgets_expanded x : never_forgets (expanded x).
Proof.
  intros s r s'. unfold expanded. destruct (_item_map s !! x) as [[|v y z]|]; simpl.
  - apply never_forgets_ret.
  - apply never_forgets_populate.
  - apply never_forgets_raise.
Qed.

Lemma never_forgets_setExpanded x : never_forgets (setExpanded_True x).
Proof.
  intros s r s'. unfold setExpanded_True.
  case_decide; [apply never_forgets_ret |].
  destruct (items s !! x) as [it|]; [| apply never_forgets_ret].
  destruct (isExpanded it); [apply never_forgets_ret |].
  intros Hrun. apply never_forgets_expanded in Hrun.
  eapply keeps_all_trans; [| exact Hrun].
  unfold with_items. split_and!; simpl; try done. by rewrite length_alter.
Qed.

Lemma never_forgets_child x i : never_forgets (child x i).
Proof.
  intros s r s'. unfold child.
  destruct (items s !! x) as [it|]; [destruct (children it !! i) |];
    intros [= <- <-]; apply keeps_all_refl.
Qed.

Lemma never_forgets_expand_all_items n : ∀ x, never_forgets (expand_all_items n x).
Proof.
  induction n as [|n IH]; intros x; simpl.
  - apply never_forgets_raise.
  - apply never_forgets_bind; [apply never_forgets_setExpanded | intros _].
    apply never_forgets_bind; [apply never_forgets_gets | intros m].
    apply never_forgets_for_each. intros i.
    apply never_forgets_bind; [apply never_forgets_child | apply IH].
Qed.

Lemma never_forgets_modify_attr (f : YamlViewer → YamlViewer) :
  (∀ s, items (f s) = items s ∧ _item_map (f s) = _item_map s ∧
        _root (f s) = _root s ∧ _marker (f s) = _marker s) →
  never_forgets (modify f).
Proof.
  intros Hf s r s' [= <- <-]. destruct (Hf s) as (Hi & Hm & Hr & Hk).
  unfold keeps_all. rewrite Hi, Hm, Hr, Hk. done.
Qed.

Lemma never_forgets_load yaml_load fuel fname : never_forgets (load yaml_load fuel fname).
Proof.
  unfold load. apply never_forgets_bind.
  { intros s r s'. unfold read_file. destruct (files s !! fname);
      intros [= <- <-]; apply keeps_all_refl. }
  intros text. destruct (yaml_load text) as [content|]; [| apply never_forgets_raise].
  apply never_forgets_bind; [by apply never_forgets_modify_attr | intros _].
  apply never_forgets_bind; [apply never_forgets_gets | intros root].
  apply never_forgets_bind; [apply never_forgets_update_item | intros _].
  apply never_forgets_bind; [apply never_forgets_gets | intros marker].
  apply never_forgets_bind; [apply never_forgets_populate | intros _].
  apply never_forgets_bind; [by apply never_forgets_modify_attr | intros _].
  apply never_forgets_expand_all_items.
Qed.

Lemma never_forgets_save yaml_dump fuel filename : never_forgets (save yaml_dump fuel filename).
Proof.
  unfold save.
  apply never_forgets_bind; [by apply never_forgets_modify_attr | intros _].
  apply never_forgets_bind; [apply never_forgets_gets | intros root].
  apply never_forgets_bind; [| intros t; by apply never_forgets_modify_attr].
  intros s r s'. unfold tree_to_yaml. destruct (root_dict fuel (items s) root);
    intros [= <- <-]; apply keeps_all_refl.
Qed.

(** X10. No method ever takes an item out of the store, removes an entry of
    the registry, or changes which items are the root and the marker,
    whether it returns or raises: [expanded], [expand_all_items], [load],
    [save] and [re_load] all keep them.  In particular the root exists after
    the call when it existed before, and the registry keeps the rows of
    every document loaded so far. *)
Theorem methods_never_forget (yaml_load : string → option PyVal) (yaml_dump : PyVal → string)
    (fuel : nat) (x : Id) (name : string) :
  never_forgets (expanded x) ∧
  never_forgets (expand_all_items fuel x) ∧
  never_forgets (load yaml_load fuel name) ∧
  never_forgets (save yaml_dump fuel name) ∧
  never_forgets (re_load yaml_load fuel) ∧
  ∀ s s', keeps_all s s' → is_Some (items s !! _root s) → is_Some (items s' !! _root s').
Proof.
  split_and!.
  - apply never_forgets_expanded.
  - apply never_forgets_expand_all_items.
  - apply never_forgets_load.
  - apply never_forgets_save.
  - unfold re_load. apply never_forgets_bind; [apply never_forgets_gets | intros f].
    destruct f; [apply never_forgets_load | apply never_forgets_ret].
  - intros s s' (Hlen & _ & Hroot & _) Hs. rewrite Hroot.
    apply lookup_lt_is_Some. apply lookup_lt_is_Some in Hs. lia.
Qed.

Lemma methods_never_forget_witness :
  keeps_all example_lazy (expanded 3 example_lazy).2 ∧
  is_Some (items (expanded 3 example_lazy).2 !! _root (expanded 3 example_lazy).2).
Proof.
  destruct (methods_never_forget (λ _, None) (λ _, "") 0 3 "doc.yaml") as (Hexp & _ & _ & _ & _ & Hroot).
  assert (keeps_all example_lazy (expanded 3 example_lazy).2) as Hk.
  { apply (Hexp example_lazy (expanded 3 example_lazy).1). by destruct (expanded 3 example_lazy). }
  split; [exact Hk |].
  apply (Hroot example_lazy); [exact Hk |]. eexists. vm_compute. reflexivity.
Defined.

(** ** The saved form is stable *)

Lemma valid_keys_dict d :
  NoDup (d.*1) → Forall (λ kv, valid_keys kv.2) d → valid_keys (PDict d).
Proof.
  intros Hnd Hd. split; [done |]. clear Hnd.
  induction Hd as [|[k v] d Hv _ IH]; simpl; [done | by split].
Qed.

Lemma entries_nonempty_depth v n : entries v ≠ [] → depth v ≤ n → ∃ n', n = S n'.
Proof.
  destruct v as [a|l|d]; simpl; [done | |]; intros _ Hn; destruct n; try lia; by eexists.
Qed.

Lemma Forall_map_second_ext (f g : PyVal → PyVal) (es : list (string * PyVal)) :
  Forall (λ kv, f kv.2 = g kv.2) es →
  map (λ kv, (kv.1, f kv.2)) es = map (λ kv, (kv.1, g kv.2)) es.
Proof. induction 1 as [|kv es H _ IH]; simpl; [done | by rewrite H, IH]. Qed.

Lemma valid_keys_saved_form n : ∀ v,
  depth v ≤ n → valid_keys v → valid_keys (saved_form v).
Proof.
  induction n as [|n IH]; intros v Hd Hv.
  - destruct v; simpl in Hd; [done | lia | lia].
  - destruct (entries v) as [|e es] eqn:He.
    + by rewrite (saved_form_leaf "" v He).
    + rewrite saved_form_entries by (by rewrite He).
      destruct (valid_keys_entries v Hv) as [Hnd Hvs].
      apply valid_keys_dict; [by rewrite map_fst_second |].
      apply Forall_fmap, Forall_forall. intros [k v'] Hin. simpl.
      apply IH.
      * apply entries_depth in Hin. lia.
      * rewrite Forall_forall in Hvs. by apply (Hvs (k, v')).
Qed.

Lemma saved_form_idempotent n : ∀ v,
  depth v ≤ n → saved_form (saved_form v) = saved_form v.
Proof.
  induction n as [|n IH]; intros v Hd.
  - destruct v; simpl in Hd; [done | lia | lia].
  - destruct (entries v) as [|e es] eqn:He.
    + by rewrite (saved_form_leaf "" v He).
    + rewrite (saved_form_entries v) by (by rewrite He).
      rewrite saved_form_entries by (simpl; by rewrite He).
      simpl. f_equal. rewrite map_map. simpl.
      apply (Forall_map_second_ext (λ x, saved_form (saved_form x)) saved_form), Forall_forall.
      intros [k v'] Hin. simpl.
      apply IH. apply entries_depth in Hin. lia.
Qed.

Lemma saved_root_idempotent content : saved_root (saved_root content) = saved_root content.
Proof.
  unfold saved_root. simpl. f_equal. rewrite map_map. simpl.
  apply (Forall_map_second_ext (λ x, saved_form (saved_form x)) saved_form), Forall_forall.
  intros [k v] _. simpl.
  by apply (saved_form_idempotent (depth v)).
Qed.

Lemma valid_keys_saved_root content : valid_keys content → valid_keys (saved_root content).
Proof.
  intros Hv. destruct (valid_keys_entries content Hv) as [Hnd Hvs].
  apply valid_keys_dict; [by rewrite map_fst_second |].
  apply Forall_fmap. eapply Forall_impl; [exact Hvs |].
  intros [k v] Hkv. simpl in *. by apply (valid_keys_saved_form (depth v)).
Qed.

(** X11. The value that [save] dumps is a fixed point of loading and
    saving: when a file parses into the saved form of some document, loading
    it and saving again dumps that very value, so a saved document does not
    change any further from one load/save round to the next. *)
Theorem saved_document_is_stable (yaml_load : string → option PyVal)
    (yaml_dump : PyVal → string) (n : nat) (path file text : string) (s : YamlViewer)
    (content : PyVal) :
  files s !! path = Some text →
  yaml_load text = Some (saved_root content) →
  is_Some (items s !! _root s) →
  depth (saved_root content) ≤ n →
  valid_keys content →
  ∃ s', load yaml_load (S n) path s = (Ok (), s') ∧
        save yaml_dump n file s'
          = (Ok (), with_files (<[file := yaml_dump (saved_root content)]>) s').
Proof.
  intros Hfile Hyaml [rit Hrit] Hdepth Hvalid.
  destruct (load_spec yaml_load n path s text _ rit Hfile Hyaml Hrit Hdepth)
    as (s' & ks & Hrun & (Hroot & _) & Hit' & _ & _ & Hks & _).
  simpl in Hroot. exists s'. split; [done |].
  apply save_run. rewrite Hroot.
  rewrite <- (saved_root_idempotent content).
  eapply mirrors_root_dict; [exact Hit' | exact Hks |].
  by apply valid_keys_saved_root.
Qed.

Lemma saved_document_is_stable_witness :
  ∃ s', load (λ _, Some (saved_root example_doc)) 3 "out.yaml"
          (YamlViewer_init {["out.yaml" := "dumped"]}) = (Ok (), s') ∧
        save (λ _, "dumped") 2 "again.yaml" s'
          = (Ok (), with_files (<["again.yaml" := "dumped"]>) s').
Proof.
  apply (saved_document_is_stable (λ _, Some (saved_root example_doc)) (λ _, "dumped") 2
           "out.yaml" "again.yaml" "dumped" (YamlViewer_init {["out.yaml" := "dumped"]})
           example_doc).
  - simpl. apply lookup_singleton_eq.
  - reflexivity.
  - eexists. reflexivity.
  - vm_compute. lia.
  - simpl. split_and!; try exact I; apply (bool_decide_unpack _); vm_compute; exact I.
Defined.

(** ** What the round through the tree does to the entries *)

Lemma dict_get_entries_elem es k v :
  NoDup (es.*1) → (k, v) ∈ es → dict_get es k = Some v.
Proof. apply dict_get_elem. Qed.

Lemma saved_form_list_keys l :
  l ≠ [] →
  ∃ d, saved_form (PList l) = PDict d ∧ d.*1 = pretty <$> seq 0 (length l).
Proof.
  intros Hl. destruct l as [|x l]; [done |].
  eexists. split; [reflexivity |].
  rewrite <- list_fmap_compose.
  replace ((fst ∘ (λ nd : nat * PyVal, (pretty nd.1, nd.2))) <$> enumerate (map saved_form (x :: l)))
    with (pretty <$> (enumerate (map saved_form (x :: l))).*1) by (by rewrite <- list_fmap_compose).
  unfold enumerate. by rewrite enumerate_from_fst, length_map.
Qed.

(** X12. The types of the document do not survive the round through the
    tree.  After [load], the dictionary that [save] dumps binds the key of
    every top-level entry: to the displayed text for a scalar (an integer
    becomes a string), to the empty string for an empty dictionary, to the
    summary text for an empty list, and for a list with elements to a
    dictionary whose keys are the positions "0", "1", ... *)
Theorem save_changes_types (yaml_load : string → option PyVal) (n : nat)
    (path text : string) (s : YamlViewer) (content : PyVal) :
  files s !! path = Some text →
  yaml_load text = Some content →
  is_Some (items s !! _root s) →
  depth content ≤ n →
  valid_keys content →
  ∃ s' d, load yaml_load (S n) path s = (Ok (), s') ∧
          root_dict n (items s') (_root s') = Some (PDict d) ∧
          ∀ k v, (k, v) ∈ entries content →
            (∀ a, v = PScalar a → dict_get d k = Some (PStr (py_str a))) ∧
            (v = PDict [] → dict_get d k = Some (PStr "")) ∧
            (v = PList [] → dict_get d k = Some (PStr "(list with 0 items)")) ∧
            (∀ l, v = PList l → l ≠ [] →
                  ∃ d', dict_get d k = Some (PDict d') ∧ d'.*1 = pretty <$> seq 0 (length l)).
Proof.
  intros Hfile Hyaml [rit Hrit] Hdepth Hvalid.
  destruct (load_spec yaml_load n path s text content rit Hfile Hyaml Hrit Hdepth)
    as (s' & ks & Hrun & (Hroot & _) & Hit' & _ & _ & Hks & _).
  simpl in Hroot.
  exists s', (map (λ kv, (kv.1, saved_form kv.2)) (entries content)). split_and!; [done | |].
  - rewrite Hroot. by eapply mirrors_root_dict.
  - intros k v Hin. destruct (valid_keys_entries content Hvalid) as [Hnd _].
    rewrite dict_get_map, (dict_get_entries_elem _ _ _ Hnd Hin). simpl.
    split_and!.
    + by intros a ->.
    + by intros ->.
    + by intros ->.
    + intros l -> Hl. destruct (saved_form_list_keys l Hl) as (d' & -> & Hk). by exists d'.
Qed.

Lemma save_changes_types_witness :
  ∃ s' d, load (λ _, Some example_doc) 3 "doc.yaml"
            (YamlViewer_init {["doc.yaml" := "{a: 1, b: {c: 2, d: 3}, e: [4, 5]}"]}) = (Ok (), s') ∧
          root_dict 2 (items s') (_root s') = Some (PDict d) ∧
          dict_get d "a" = Some (PStr "1") ∧
          ∃ d', dict_get d "e" = Some (PDict d') ∧ d'.*1 = ["0"; "1"].
Proof.
  destruct (save_changes_types (λ _, Some example_doc) 2 "doc.yaml"
              "{a: 1, b: {c: 2, d: 3}, e: [4, 5]}"
              (YamlViewer_init {["doc.yaml" := "{a: 1, b: {c: 2, d: 3}, e: [4, 5]}"]}) example_doc)
    as (s' & d & Hrun & Hd & Hall).
  - simpl. apply lookup_singleton_eq.
  - reflexivity.
  - eexists. reflexivity.
  - vm_compute. lia.
  - simpl. split_and!; try exact I; apply (bool_decide_unpack _); vm_compute; exact I.
  - exists s', d. split_and!; [assumption | assumption | |].
    + destruct (Hall "a" (PInt 1)) as (Ha & _); [apply list_elem_of_here |].
      exact (Ha (SInt 1) eq_refl).
    + destruct (Hall "e" (PList [PInt 4; PInt 5])) as (_ & _ & _ & He).
      { simpl. do 2 apply list_elem_of_further. apply list_elem_of_here. }
      destruct (He [PInt 4; PInt 5] eq_refl) as (d' & Hget & Hkeys); [discriminate |].
      exists d'. split; assumption.
Defined.
